(** * kahler: discrete exterior calculus on a simplicial complex

    A shallow embedding of [kahler/grid_utils] (vertex stitching),
    [kahler/skeleton.pyx] (face enumeration, exterior derivative, boundary
    and interior classification, primal volumes) and
    [kahler/simplicial_complex.pyx] (construction, barycentric gradients,
    dual cells), followed by the properties established about them.

    Conventions.
    - Vertex labels are [uint] values, modelled as [N]; positions in Python
      lists and arrays, and the dense simplex indices, are [nat].
    - A [frozenset] of vertices is a [gset N]; a [dict] is a [gmap].
    - [int8] matrix entries are [Z]; the only values stored are [1] and [-1].
    - [complex] array entries are exact complex numbers [C] over the reals:
      rounding of the machine arithmetic is not modelled.
    - A Python exception is an explicit [Raise] outcome; a [while] loop that
      never exits is the outcome [Loops].
    - Every branch of [__getattr__] has the shape [self.x = e; return self.x]
      and no attribute is ever reassigned, so the value an attribute takes is
      a function of the constructed complex; each lazily computed attribute
      is modelled by that function, which first looks at what [__init__]
      stored on the instance. *)

From Stdlib Require Import ZArith NArith List Lia Reals Lra.
From stdpp Require Import base gmap sets list strings sorting.
Import ListNotations.

Local Open Scope nat_scope.

(** ** Outcomes of Python code *)

Inductive exception :=
| AttributeError (msg : string)
| KeyError
| IndexError
| ValueError
| LinAlgError.

Inductive result (A : Type) :=
| Ok (a : A)
| Raise (e : exception)
| Loops.
Arguments Ok {A} a.
Arguments Raise {A} e.
Arguments Loops {A}.

Definition result_bind {A B} (f : A → result B) (m : result A) : result B :=
  match m with
  | Ok a => f a
  | Raise e => Raise e
  | Loops => Loops
  end.

#[global] Instance result_mbind : MBind result := @result_bind.
#[global] Instance result_mret : MRet result := @Ok.
#[global] Instance result_fmap : FMap result :=
  λ A B f m, result_bind (λ a, Ok (f a)) m.

Definition of_option {A} (e : exception) (o : option A) : result A :=
  match o with
  | Some a => Ok a
  | None => Raise e
  end.

(** [[f(x) for x in l]] where [f] may fail: the first failure wins. *)
Fixpoint result_map {A B} (f : A → result B) (l : list A) : result (list B) :=
  match l with
  | [] => Ok []
  | x :: l' =>
      y ← f x;
      ys ← result_map f l';
      Ok (y :: ys)
  end.

(** ** grid_utils: stitching *)

(** [_stitch]: [while index in stitches: index = stitches[index]].  The
    loop is run with a bound on its iterations; [None] is a bound too small. *)
Fixpoint _stitch_fuel (fuel : nat) (index : N) (stitches : gmap N N) : option N :=
  match fuel with
  | O => None
  | S fuel' =>
      match stitches !! index with
      | Some next => _stitch_fuel fuel' next stitches
      | None => Some index
      end
  end.

(** A chain that leaves the map does so after at most [size stitches]
    steps (lemma [_stitch_fuel_enough]); otherwise it runs into a cycle. *)
Definition _stitch (index : N) (stitches : gmap N N) : result N :=
  match _stitch_fuel (S (size stitches)) index stitches with
  | Some r => Ok r
  | None => Loops
  end.

Definition stitch (simplex : list N) (stitches : gmap N N) : result (list N) :=
  result_map (λ s, _stitch s stitches) simplex.

(** ** Sparse matrices in CSR form *)

Record csr_matrix := {
  data : list Z;
  indices : list nat;
  indptr : list nat;
  shape : nat * nat
}.

(** The stored entries of row [r]: positions [indptr[r] .. indptr[r+1]-1]. *)
Definition csr_row (m : csr_matrix) (r : nat) : list (nat * Z) :=
  let lo := nth r (indptr m) 0 in
  let hi := nth (S r) (indptr m) 0 in
  zip (take (hi - lo) (drop lo (indices m))) (take (hi - lo) (drop lo (data m))).

Definition sumZ (l : list Z) : Z := foldr Z.add 0%Z l.

(** Entry [(r, c)]: stored entries of one cell add up. *)
Definition row_get (row : list (nat * Z)) (c : nat) : Z :=
  sumZ (map snd (filter (λ e, e.1 = c) row)).

Definition csr_get (m : csr_matrix) (r c : nat) : Z := row_get (csr_row m r) c.

Definition todense (m : csr_matrix) : list (list Z) :=
  map (λ r, map (csr_get m r) (seq 0 (shape m).2)) (seq 0 (shape m).1).

(** [csr_matrix((rows, cols))]: nothing stored. *)
Definition csr_empty (rows cols : nat) : csr_matrix :=
  {| data := []; indices := []; indptr := replicate (S rows) 0; shape := (rows, cols) |}.

Definition zeros (rows cols : nat) : list (list Z) := replicate rows (replicate cols 0%Z).


(** [abs(m[rows]).sum(axis=0).getA1()]: absolute column sums over the
    selected rows. *)
Definition abs_column_sums (m : csr_matrix) (rows : list nat) : list Z :=
  map (λ c, sumZ (map (λ r, Z.abs (csr_get m r c)) rows)) (seq 0 (shape m).2).

(** [a.nonzero()[0]] of a 1-D array, after an elementwise test. *)
Definition where_ (p : Z → bool) (a : list Z) : list nat :=
  map fst (filter (λ e, p e.2 = true) (zip (seq 0 (length a)) a)).

(** ** skeleton.pyx: face enumeration and exterior derivative *)

Definition frozenset (l : list N) : gset N := list_to_set l.

(** [simplex[:j] + simplex[j + 1:]] *)
Definition delete_at {A} (j : nat) (simplex : list A) : list A :=
  take j simplex ++ drop (S j) simplex.

Record exterior_state := {
  st_indices : list nat;
  st_indptr : list nat;
  st_data : list Z;
  st_simplices : list (list N);
  st_simplex_to_index : gmap (gset N) nat;
  st_num_simplices : nat
}.

Definition exterior_init : exterior_state :=
  {| st_indices := []; st_indptr := [0]; st_data := []; st_simplices := [];
     st_simplex_to_index := ∅; st_num_simplices := 0 |}.

(** Body of the inner loop, for position [j] of [simplex]. *)
Definition face_step (simplex : list N) (st : exterior_state) (j : nat) : exterior_state :=
  let face := delete_at j simplex in
  let sface := frozenset face in
  let st1 :=
    match st_simplex_to_index st !! sface with
    | Some i =>
        {| st_indices := st_indices st ++ [i]; st_indptr := st_indptr st;
           st_data := st_data st; st_simplices := st_simplices st;
           st_simplex_to_index := st_simplex_to_index st;
           st_num_simplices := st_num_simplices st |}
    | None =>
        {| st_indices := st_indices st ++ [st_num_simplices st];
           st_indptr := st_indptr st;
           st_data := st_data st;
           st_simplices := st_simplices st ++ [face];
           st_simplex_to_index := <[sface := st_num_simplices st]> (st_simplex_to_index st);
           st_num_simplices := st_num_simplices st + 1 |}
    end in
  {| st_indices := st_indices st1; st_indptr := st_indptr st1;
     st_data := st_data st1 ++ [((-1) ^ Z.of_nat j)%Z];
     st_simplices := st_simplices st1;
     st_simplex_to_index := st_simplex_to_index st1;
     st_num_simplices := st_num_simplices st1 |}.

(** Body of the outer loop, for row [col] of [old_simplices]. *)
Definition row_step (j_max : nat) (st : exterior_state) (col_simplex : nat * list N) : exterior_state :=
  let '(col, simplex) := col_simplex in
  let st1 := foldl (face_step simplex) st (seq 0 j_max) in
  {| st_indices := st_indices st1;
     st_indptr := st_indptr st1 ++ [(col + 1) * j_max];
     st_data := st_data st1; st_simplices := st_simplices st1;
     st_simplex_to_index := st_simplex_to_index st1;
     st_num_simplices := st_num_simplices st1 |}.

(** What [compute_exterior] assigns to the skeleton. *)
Record exterior := {
  self_simplices : list (list N);
  self_exterior_derivative : csr_matrix;
  self_num_simplices : nat;
  self_simplex_to_index : gmap (gset N) nat
}.

(** [unsigned char x = n]: a C assignment keeps the low eight bits. *)
Definition to_uchar (n : nat) : nat := n mod 256.

(** [compute_exterior], as a function of the simplices of the skeleton one
    dimension higher.  [asarray(list(...))] of no rows is a 1-D array, which
    the typed 2-D buffer refuses; [j_max] is an [unsigned char] read from
    the C-level shape. *)
Definition compute_exterior (old_simplices : list (list N)) : result exterior :=
  match old_simplices with
  | [] => Raise ValueError
  | first :: _ =>
      let col_max := length old_simplices in
      let j_max := to_uchar (length first) in
      let st := foldl (row_step j_max) exterior_init
                      (zip (seq 0 col_max) old_simplices) in
      Ok {| self_simplices := st_simplices st;
            self_exterior_derivative :=
              {| data := st_data st; indices := st_indices st;
                 indptr := st_indptr st;
                 shape := (col_max, length (st_simplices st)) |};
            self_num_simplices := st_num_simplices st;
            self_simplex_to_index := st_simplex_to_index st |}
  end.


(** [compute_unstitched]: the set of one-vertex-deleted tuples. *)
Definition compute_unstitched (simplex : list N) : gset (list N) :=
  list_to_set (map (λ i, delete_at i simplex) (seq 0 (length simplex))).

(** ** Complex numbers and dense complex matrices *)

Definition C : Type := R * R.

Definition C0 : C := (0%R, 0%R).
Definition C1 : C := (1%R, 0%R).
Definition Cadd (x y : C) : C := ((x.1 + y.1)%R, (x.2 + y.2)%R).
Definition Copp (x : C) : C := ((- x.1)%R, (- x.2)%R).
Definition Csub (x y : C) : C := ((x.1 - y.1)%R, (x.2 - y.2)%R).
Definition Cmul (x y : C) : C :=
  ((x.1 * y.1 - x.2 * y.2)%R, (x.1 * y.2 + x.2 * y.1)%R).
Definition Cconj (x : C) : C := (x.1, (- x.2)%R).
Definition Cdiv_real (x : C) (r : R) : C := ((x.1 / r)%R, (x.2 / r)%R).
Definition Cmod (x : C) : R := sqrt (x.1 * x.1 + x.2 * x.2).

(** Principal square root. *)
Definition Csqrt (x : C) : C :=
  (sqrt ((Cmod x + x.1) / 2),
   ((if Rlt_dec x.2 0 then -1 else 1) * sqrt ((Cmod x - x.1) / 2))%R).

Definition Csum (l : list C) : C := foldl Cadd C0 l.

Definition vadd (u v : list C) : list C := zip_with Cadd u v.
Definition vsub (u v : list C) : list C := zip_with Csub u v.
Definition vopp (u : list C) : list C := map Copp u.

(** Number of columns of a matrix held as its list of rows. *)
Definition width {A} (m : list (list A)) : nat := length (hd [] m).

Definition column (m : list (list C)) (j : nat) : list C :=
  map (λ row, nth j row C0) m.

(** [a.dot(b)] *)
Definition mat_dot (a b : list (list C)) : list (list C) :=
  map (λ row, map (λ j, Csum (zip_with Cmul row (column b j))) (seq 0 (width b))) a.

(** [a.conj().T] *)
Definition conj_T (a : list (list C)) : list (list C) :=
  map (λ j, map Cconj (column a j)) (seq 0 (width a)).

(** [a.sum(axis=0)] *)
Definition sum_axis0 (a : list (list C)) : list C :=
  foldl vadd (replicate (width a) C0) a.

Definition identity (n : nat) : list (list C) :=
  map (λ i, map (λ j, if decide (i = j) then C1 else C0) (seq 0 n)) (seq 0 n).

(** The minor of [m] without its first row and its column [j]. *)
Definition minor (m : list (list C)) (j : nat) : list (list C) :=
  map (delete_at j) (tl m).

(** Determinant by expansion along the first row; [n] is the order. *)
Fixpoint det_order (n : nat) (m : list (list C)) : C :=
  match n with
  | O => C1
  | S n' =>
      Csum (map (λ j, Cmul (Cmul (if Nat.even j then C1 else Copp C1) (nth j (hd [] m) C0))
                           (det_order n' (minor m j)))
                (seq 0 n))
  end.

(** [zdet_r(m, True)[0]] *)
Definition det (m : list (list C)) : C := det_order (length m) m.

(** [points[1:] - points[0]], then [sqrt(det(vecs.dot(metric).dot(vecs.conj().T)))] *)
Definition compute_primal_volumes (points metric : list (list C)) : result C :=
  match points with
  | [] => Raise IndexError
  | p0 :: rest =>
      let vecs := map (λ p, vsub p p0) rest in
      Ok (Csqrt (det (mat_dot (mat_dot vecs metric) (conj_T vecs))))
  end.

Section barycentric_gradients.
(** [scipy.linalg.inv]: a collaborator; it raises on a singular matrix. *)
Variable inv : list (list C) → result (list (list C)).

Definition compute_barycentric_gradients (points metric : list (list C))
    : result (list (list C)) :=
  match points with
  | [] => Raise IndexError
  | p0 :: rest =>
      let V := map (λ p, vsub p p0) rest in
      let V1 := mat_dot V metric in
      g ← inv (mat_dot V1 (conj_T V));
      let grads := mat_dot g V1 in
      (* vstack((atleast_2d(-grads.sum(axis=0)), grads)) *)
      Ok (vopp (sum_axis0 grads) :: grads)
  end.
End barycentric_gradients.

(** ** simplicial_complex.pyx: the complex and its construction *)

(** A 2-D numpy array: its rows and the length [shape[1]] they all have. *)
Record array2d (A : Type) := {
  rows : list (list A);
  ncols : nat
}.
Arguments rows {A} a.
Arguments ncols {A} a.

Definition well_shaped {A} (a : array2d A) : Prop :=
  Forall (λ r, length r = ncols a) (rows a).

(** [a.sort()]: numpy sorts in place along the last axis, that is, every
    row on its own. *)
Definition ndarray_sort (a : array2d N) : array2d N :=
  {| rows := map (merge_sort N.le) (rows a); ncols := ncols a |}.

(** [vertices[simplices]] *)
Definition take_rows {A} (vertices : list (list A)) (simplex : list N)
    : result (list (list A)) :=
  result_map (λ v, of_option IndexError (vertices !! N.to_nat v)) simplex.

(** What the instance dictionary of a [Skeleton] may hold. *)
Record skeleton := {
  dim : Z;
  stored_simplices : option (list (list N));
  stored_simplex_to_index : option (gmap (gset N) nat);
  stored_num_simplices : option nat;
  stored_exterior_derivative : option csr_matrix;
  stored_boundary : option (list nat);
  stored_interior : option (list nat);
  stored_unstitched : option (list (list N));
  stored_points : option (list (list (list C)))
}.

(** [Skeleton()] with [complex] and [dim] assigned. *)
Definition empty_skeleton (d : Z) : skeleton :=
  {| dim := d; stored_simplices := None; stored_simplex_to_index := None;
     stored_num_simplices := None; stored_exterior_derivative := None;
     stored_boundary := None; stored_interior := None;
     stored_unstitched := None; stored_points := None |}.

Definition metric_field : Type := list C → list (list C).

Record complex := {
  complex_dimension : Z;
  vertices : array2d C;
  embedding_dimension : nat;
  stitches : gmap N N;
  subdivisions : nat;
  metric : metric_field;
  skeleta : list skeleton
}.

(** Python list indexing [l[i]], negative positions counted from the end. *)
Definition py_position (len : nat) (i : Z) : result nat :=
  if decide (0 ≤ i < Z.of_nat len)%Z then Ok (Z.to_nat i)
  else if decide (- Z.of_nat len ≤ i < 0)%Z then Ok (Z.to_nat (Z.of_nat len + i))
  else Raise IndexError.

Definition skeleton_at (cx : complex) (pos : nat) : result skeleton :=
  of_option IndexError (skeleta cx !! pos).

(** ** skeleton.pyx: the lazily computed attributes of [Skeleton] *)

Module Skeleton.

(** [self.complex[self.dim + 1]] *)
Definition upper (cx : complex) (sk : skeleton) : result nat :=
  py_position (length (skeleta cx)) (dim sk + 1).

(** [self.compute_exterior()] on the skeleton at position [pos]; reading
    [simplices] of the skeleton above may compute that one first. *)
Fixpoint exterior_at (fuel : nat) (cx : complex) (pos : nat) : result exterior :=
  match fuel with
  | O => Loops
  | S fuel' =>
      sk ← skeleton_at cx pos;
      up_pos ← upper cx sk;
      up ← skeleton_at cx up_pos;
      old_simplices ←
        match stored_simplices up with
        | Some s => Ok s
        | None => e ← exterior_at fuel' cx up_pos; Ok (self_simplices e)
        end;
      compute_exterior old_simplices
  end.

Definition compute_exterior_of (cx : complex) (pos : nat) : result exterior :=
  exterior_at (length (skeleta cx)) cx pos.

(** Attribute access: the instance dictionary first, then the branch of
    [__getattr__] for
    ['exterior_derivative', 'simplices', 'simplex_to_index', 'num_simplices']. *)
Definition lazy_exterior {A} (stored : skeleton → option A) (computed : exterior → A)
    (cx : complex) (pos : nat) : result A :=
  sk ← skeleton_at cx pos;
  match stored sk with
  | Some v => Ok v
  | None => e ← compute_exterior_of cx pos; Ok (computed e)
  end.

Definition simplices (cx : complex) (pos : nat) : result (list (list N)) :=
  lazy_exterior stored_simplices self_simplices cx pos.
Definition exterior_derivative (cx : complex) (pos : nat) : result csr_matrix :=
  lazy_exterior stored_exterior_derivative self_exterior_derivative cx pos.
Definition num_simplices (cx : complex) (pos : nat) : result nat :=
  lazy_exterior stored_num_simplices self_num_simplices cx pos.
Definition simplex_to_index (cx : complex) (pos : nat) : result (gmap (gset N) nat) :=
  lazy_exterior stored_simplex_to_index self_simplex_to_index cx pos.

Definition is_odd (x : Z) : bool := (x mod 2 =? 1)%Z.
Definition is_nonzero (x : Z) : bool := negb (x =? 0)%Z.

(** The branch [attr == "boundary"] of [__getattr__]. *)
Fixpoint boundary_at (fuel : nat) (cx : complex) (pos : nat) : result (list nat) :=
  match fuel with
  | O => Loops
  | S fuel' =>
      sk ← skeleton_at cx pos;
      if decide (dim sk = complex_dimension cx - 1)%Z then
        e ← exterior_derivative cx pos;
        Ok (where_ is_odd (abs_column_sums e (seq 0 (shape e).1)))
      else
        up_pos ← upper cx sk;
        up ← skeleton_at cx up_pos;
        old_boundary ←
          match stored_boundary up with
          | Some b => Ok b
          | None => boundary_at fuel' cx up_pos
          end;
        if decide (length old_boundary ≠ 0) then
          e ← exterior_derivative cx pos;
          if forallb (λ r, r <? (shape e).1) old_boundary then
            Ok (where_ is_nonzero (abs_column_sums e old_boundary))
          else Raise IndexError
        else Ok []
  end.

Definition boundary (cx : complex) (pos : nat) : result (list nat) :=
  sk ← skeleton_at cx pos;
  match stored_boundary sk with
  | Some b => Ok b
  | None => boundary_at (length (skeleta cx)) cx pos
  end.

(** [sorted(set(arange(self.num_simplices)) - set(self.boundary))] *)
Definition interior (cx : complex) (pos : nat) : result (list nat) :=
  sk ← skeleton_at cx pos;
  match stored_interior sk with
  | Some i => Ok i
  | None =>
      n ← num_simplices cx pos;
      b ← boundary cx pos;
      Ok (merge_sort Nat.le
            (elements ((list_to_set (seq 0 n) : gset nat) ∖ list_to_set b)))
  end.

Section collaborators.
(** Collaborators that are not part of the sources.
    - [list_of_set]: the order in which Python iterates over a set.
    - [derham_map] ([form_utils]): samples the metric field at every
      unstitched simplex.
    - [operator]: the outcome of the branches of [__getattr__] that
      build the floating-point operators; they are not modelled. *)
Variable list_of_set : gset (list N) → list (list N).
Variable derham_map :
  metric_field → list (list (list C)) → nat → list (list (list C)).
Variable X : Type.
Variable operator : string → complex → nat → result X.

(** The branch [attr == 'unstitched']:
    [list(parmapreduce(self.compute_unstitched, above, or_))]. *)
Fixpoint unstitched_at (fuel : nat) (cx : complex) (pos : nat)
    : result (list (list N)) :=
  match fuel with
  | O => Loops
  | S fuel' =>
      sk ← skeleton_at cx pos;
      up_pos ← upper cx sk;
      up ← skeleton_at cx up_pos;
      above ←
        match stored_unstitched up with
        | Some u => Ok u
        | None => unstitched_at fuel' cx up_pos
        end;
      Ok (list_of_set (⋃ (map compute_unstitched above)))
  end.

Definition unstitched (cx : complex) (pos : nat) : result (list (list N)) :=
  sk ← skeleton_at cx pos;
  match stored_unstitched sk with
  | Some u => Ok u
  | None => unstitched_at (length (skeleta cx)) cx pos
  end.

(** The branch [attr == 'points']: [vertices[asarray(self.unstitched)]]. *)
Definition points_branch (cx : complex) (pos : nat)
    : result (list (list (list C))) :=
  u ← unstitched cx pos;
  result_map (take_rows (rows (vertices cx))) u.

Definition points (cx : complex) (pos : nat) : result (list (list (list C))) :=
  sk ← skeleton_at cx pos;
  match stored_points sk with
  | Some p => Ok p
  | None => points_branch cx pos
  end.

(** The branch [attr == 'metrics']. *)
Definition metrics (cx : complex) (pos : nat) : result (list (list (list C))) :=
  p ← points cx pos;
  Ok (derham_map (metric cx) p (subdivisions cx)).

(** [for index, volume in primal_volumes: self.primal_volumes[index] = volume] *)
Definition scatter (arr : list (option C)) (writes : list (nat * C))
    : result (list (option C)) :=
  foldl (λ acc w,
           a ← acc;
           if decide (w.1 < length a) then Ok (<[w.1 := Some w.2]> a)
           else Raise IndexError)
        (Ok arr) writes.

(** The branch [attr == "primal_volumes"].  An entry of [empty(...)]
    that is never written is [None]. *)
Definition primal_volume_of (cx : complex) (pos : nat)
    (stuff : list N * list (list C) * list (list C)) : result (nat * C) :=
  s2i ← simplex_to_index cx pos;
  key ← stitch stuff.1.1 (stitches cx);
  index ← of_option KeyError (s2i !! frozenset key);
  volume ← compute_primal_volumes stuff.1.2 stuff.2;
  Ok (index, volume).

Definition primal_volumes (cx : complex) (pos : nat) : result (list (option C)) :=
  sk ← skeleton_at cx pos;
  if decide (dim sk ≠ 0%Z) then
    u ← unstitched cx pos;
    p ← points cx pos;
    m ← metrics cx pos;
    writes ← result_map (primal_volume_of cx pos) (zip (zip u p) m);
    n ← num_simplices cx pos;
    arr ← scatter (replicate n None) writes;
    Ok (map (option_map (λ v, Cdiv_real v (INR (fact (Z.to_nat (dim sk)))))) arr)
  else
    n ← num_simplices cx pos;
    Ok (replicate n (Some C1)).

Inductive value :=
| VIndices (a : list nat)
| VSimplices (s : list (list N))
| VDict (m : gmap (gset N) nat)
| VInt (n : nat)
| VSparse (m : csr_matrix)
| VPoints (p : list (list (list C)))
| VVolumes (v : list (option C))
| VOperator (x : X).

(** [Skeleton.__getattr__]: Python calls it when the name is found
    neither on the instance nor on its class. *)
Definition __getattr__ (cx : complex) (pos : nat) (attr : string) : result value :=
  if decide (attr = "sharp") then VOperator <$> operator attr cx pos
  else if decide (attr = "boundary") then
    VIndices <$> boundary_at (length (skeleta cx)) cx pos
  else if decide (attr = "interior") then
    n ← num_simplices cx pos;
    b ← boundary cx pos;
    Ok (VIndices (merge_sort Nat.le
          (elements ((list_to_set (seq 0 n) : gset nat) ∖ list_to_set b))))
  else if decide (attr ∈ ["exterior_derivative"; "simplices"; "simplex_to_index";
                          "num_simplices"]) then
    e ← compute_exterior_of cx pos;
    Ok (if decide (attr = "exterior_derivative") then VSparse (self_exterior_derivative e)
        else if decide (attr = "simplices") then VSimplices (self_simplices e)
        else if decide (attr = "simplex_to_index") then VDict (self_simplex_to_index e)
        else VInt (self_num_simplices e))
  else if decide (attr = "unstitched") then
    VSimplices <$> unstitched_at (length (skeleta cx)) cx pos
  else if decide (attr = "points") then VPoints <$> points_branch cx pos
  else if decide (attr = "metrics") then VPoints <$> metrics cx pos
  else if decide (attr = "primal_volumes") then VVolumes <$> primal_volumes cx pos
  else if decide (attr ∈ ["circumcenters"; "dual_volumes"; "star"; "inverse_star";
                          "codifferential"; "laplace_beltrami"; "laplace_derham"]) then
    VOperator <$> operator attr cx pos
  else Raise (AttributeError (attr +:+ " not found")).
End collaborators.

End Skeleton.

(** ** simplicial_complex.pyx: [SimplicialComplex] *)

Module SimplicialComplex.

(** [dict(pairs)]: a later pair overrides an earlier one with the same key. *)
Definition dict_of_pairs (pairs : list (gset N * nat)) : gmap (gset N) nat :=
  foldl (λ m kv, <[kv.1 := kv.2]> m) ∅ pairs.

(** [SimplicialComplex.__init__] *)
Definition __init__ (simplices0 : array2d N) (vertices : array2d C)
    (metric : option metric_field) (stitches : gmap N N) (subdivisions : nat)
    : result complex :=
  let simplices := ndarray_sort simplices0 in
  let complex_dimension := (Z.of_nat (ncols simplices) - 1)%Z in
  let embedding_dimension := ncols vertices in
  let metric :=
    match metric with
    | None => λ _, identity embedding_dimension
    | Some f => f
    end in
  let lower := map (λ d, empty_skeleton (Z.of_nat d)) (seq 0 (Z.to_nat complex_dimension)) in
  stitched ← result_map (λ s, stitch s stitches) (rows simplices);
  keys ← result_map (λ s, stitch s stitches) stitched;
  let simplex_to_index :=
    dict_of_pairs (zip (map frozenset keys) (seq 0 (length stitched))) in
  let num_simplices := length (rows simplices) in
  points ← result_map (take_rows (rows vertices)) (rows simplices);
  let top :=
    {| dim := complex_dimension;
       stored_simplices := Some stitched;
       stored_simplex_to_index := Some simplex_to_index;
       stored_num_simplices := Some num_simplices;
       stored_exterior_derivative := Some (csr_empty 1 num_simplices);
       stored_boundary := Some [];
       stored_interior := Some (seq 0 num_simplices);
       stored_unstitched := Some (rows simplices);
       stored_points := Some points |} in
  Ok {| complex_dimension := complex_dimension;
        vertices := vertices;
        embedding_dimension := embedding_dimension;
        stitches := stitches;
        subdivisions := subdivisions;
        metric := metric;
        skeleta := lower ++ [top] |}.

Section collaborators.
(** Collaborators that are not part of the sources: the iteration order
    of a set, the metric sampler, the matrix inverse, and the value of
    the attribute [circumcenters] of a skeleton, which the circumcenter
    solver fills (a dictionary from unstitched tuples to points). *)
Variable list_of_set : gset (list N) → list (list N).
Variable derham_map :
  metric_field → list (list (list C)) → nat → list (list (list C)).
Variable inv : list (list C) → result (list (list C)).
Variable circumcenters : complex → nat → result (gmap (list N) (list C)).

(** [self[i]] *)
Definition getitem (cx : complex) (i : Z) : result nat :=
  pos ← py_position (length (skeleta cx)) i;
  _ ← skeleton_at cx pos;
  Ok pos.

Definition barycentric_gradient_of (cx : complex) (top : nat)
    (stuff : list N * list (list C) * list (list C))
    : result (nat * list (list C)) :=
  s2i ← Skeleton.simplex_to_index cx top;
  key ← stitch stuff.1.1 (stitches cx);
  index ← of_option KeyError (s2i !! frozenset key);
  bc ← compute_barycentric_gradients inv stuff.1.2 stuff.2;
  Ok (index, bc).

Definition scatter {A} (arr : list (option A)) (writes : list (nat * A))
    : result (list (option A)) :=
  foldl (λ acc w,
           a ← acc;
           if decide (w.1 < length a) then Ok (<[w.1 := Some w.2]> a)
           else Raise IndexError)
        (Ok arr) writes.

(** [SimplicialComplex.__getattr__]; an entry of [empty(...)] that is
    never written is [None]. *)
Definition __getattr__ (cx : complex) (attr : string)
    : result (list (option (list (list C)))) :=
  if decide (attr = "barycentric_gradients") then
    top ← getitem cx (-1);
    u ← Skeleton.unstitched list_of_set cx top;
    p ← Skeleton.points list_of_set cx top;
    m ← Skeleton.metrics list_of_set derham_map cx top;
    writes ← result_map (barycentric_gradient_of cx top) (zip (zip u p) m);
    n ← Skeleton.num_simplices cx top;
    scatter (replicate n None) writes
  else Raise (AttributeError (attr +:+ " not found")).

(** [compute_dual_cells]; [k1], [k] and [p] are [unsigned char]. *)
Fixpoint compute_dual_cells_fuel (fuel : nat) (cx : complex) (simplex : list N)
    (p : nat) : result (list (list (list C) * nat)) :=
  match fuel with
  | O => Loops
  | S fuel' =>
      let k1 := to_uchar (length simplex) in
      let k := to_uchar (k1 + 255) in
      sk ← getitem cx (Z.of_nat k);
      cs ← circumcenters cx sk;
      c ← of_option KeyError (cs !! simplex);
      let circumcenter := [c] in
      if decide (p = k) then
        s2i ← Skeleton.simplex_to_index cx sk;
        key ← stitch simplex (stitches cx);
        index ← of_option KeyError (s2i !! frozenset key);
        Ok [(circumcenter, index)]
      else
        parts ← result_map
          (λ i,
             cells ← compute_dual_cells_fuel fuel' cx (delete_at i simplex) p;
             Ok (map (λ cell : list (list C) * nat,
                        (cell.1 ++ circumcenter, cell.2)) cells))
          (seq 0 k1);
        Ok (concat parts)
  end.

(** Every recursive call is on a shorter tuple. *)
Definition compute_dual_cells (cx : complex) (simplex : list N) (p : nat)
    : result (list (list (list C) * nat)) :=
  compute_dual_cells_fuel (S (length simplex)) cx simplex p.
End collaborators.

End SimplicialComplex.

(** ** Reference definitions used to state the properties *)

(** The faces of one simplex with the position deleted, in deletion order. *)
Definition faces (j_max : nat) (simplex : list N) : list (nat * list N) :=
  map (λ j, (j, delete_at j simplex)) (seq 0 j_max).

(** All faces in the order the two loops visit them. *)
Definition enumeration (j_max : nat) (old_simplices : list (list N))
    : list (nat * list N) :=
  concat (map (faces j_max) old_simplices).

(** Keep the first occurrence of every face identity (vertex set). *)
Fixpoint first_seen (l : list (list N)) : list (list N) :=
  match l with
  | [] => []
  | f :: l' => f :: filter (λ g, frozenset g ≠ frozenset f) (first_seen l')
  end.

(** The column a face resolves to. *)
Definition column_of (m : gmap (gset N) nat) (face : list N) : nat :=
  default 0 (m !! frozenset face).

Definition sign (j : nat) : Z := ((-1) ^ Z.of_nat j)%Z.

(** The state of the loops of [compute_exterior] after the faces [E]. *)
Definition exterior_inv (st : exterior_state) (E : list (nat * list N)) : Prop :=
  st_simplices st = first_seen E.*2 ∧
  st_num_simplices st = length (st_simplices st) ∧
  (∀ s i, st_simplex_to_index st !! s = Some i ↔
          (frozenset <$> st_simplices st) !! i = Some s) ∧
  st_indices st = map (λ e, column_of (st_simplex_to_index st) e.2) E ∧
  st_data st = map (λ e, sign e.1) E.

(** What [compute_exterior] leaves on the skeleton, in terms of the
    enumeration of the faces of [old_simplices]. *)
Definition exterior_spec (old_simplices : list (list N)) (e : exterior) : Prop :=
  let j_max := to_uchar (width old_simplices) in
  let E := enumeration j_max old_simplices in
  let m := self_exterior_derivative e in
  self_simplices e = first_seen E.*2 ∧
  self_num_simplices e = length (self_simplices e) ∧
  (∀ s i, self_simplex_to_index e !! s = Some i ↔
          (frozenset <$> self_simplices e) !! i = Some s) ∧
  indices m = map (λ f, column_of (self_simplex_to_index e) f.2) E ∧
  data m = map (λ f, sign f.1) E ∧
  indptr m = map (λ c, c * j_max) (seq 0 (S (length old_simplices))) ∧
  shape m = (length old_simplices, length (self_simplices e)).

(** Two triangles that share the edge [{1, 2}]. *)
Definition two_triangles : list (list N) := [[0; 1; 2]; [1; 2; 3]]%N.


(** The simplices of the skeleton [n] dimensions below the top one, as
    repeated face enumeration. *)
Fixpoint level_simplices (top : list (list N)) (n : nat) : result (list (list N)) :=
  match n with
  | O => Ok top
  | S n' =>
      up ← level_simplices top n';
      e ← compute_exterior up;
      Ok (self_simplices e)
  end.

(** What [compute_exterior] assigns on the skeleton [S n] dimensions below
    the top one. *)
Definition level_exterior (top : list (list N)) (n : nat) : result exterior :=
  up ← level_simplices top n;
  compute_exterior up.

(** A complex as [__init__] leaves it: [k] skeleta that only know their
    dimension, below a top skeleton with its attributes stored. *)
Definition built (cx : complex) (k : nat) (top : skeleton) : Prop :=
  complex_dimension cx = Z.of_nat k ∧
  skeleta cx = map (λ d, empty_skeleton (Z.of_nat d)) (seq 0 k) ++ [top] ∧
  dim top = Z.of_nat k ∧
  (∃ stitched, stored_simplices top = Some stitched ∧
     stored_num_simplices top = Some (length stitched) ∧
     stored_exterior_derivative top = Some (csr_empty 1 (length stitched)) ∧
     stored_interior top = Some (seq 0 (length stitched))) ∧
  stored_boundary top = Some [].

(** A real number as a complex array entry. *)
Definition Creal (x : R) : C := (x, 0%R).

(** A strip of two triangles whose vertex 3 is identified with vertex 0. *)
Definition strip_simplices : array2d N :=
  {| rows := [[0; 1; 4]; [1; 2; 3]]%N; ncols := 3 |}.
Definition strip_vertices : array2d C :=
  {| rows := [[Creal 0; Creal 0]; [Creal 1; Creal 0]; [Creal 2; Creal 0];
              [Creal 3; Creal 0]; [Creal 1; Creal 1]];
     ncols := 2 |}.
Definition strip_stitches : gmap N N := {[ 3%N := 0%N ]}.


(** Lexicographic order on rows, and the row order it would give. *)
Fixpoint lex_leb (a b : list N) : bool :=
  match a, b with
  | [], _ => true
  | _ :: _, [] => false
  | x :: a', y :: b' => if (x <? y)%N then true else if (x =? y)%N then lex_leb a' b' else false
  end.

Definition lexsort_rows (l : list (list N)) : list (list N) :=
  merge_sort (λ a b, Is_true (lex_leb a b)) l.

Definition unsorted_simplices : array2d N :=
  {| rows := [[3; 2]; [1; 0]]%N; ncols := 2 |}.
Definition line_vertices : array2d C :=
  {| rows := [[Creal 0]; [Creal 1]; [Creal 2]; [Creal 3]]; ncols := 1 |}.

(** The names [Skeleton.__getattr__] computes on first access. *)
Definition skeleton_lazy_fields : list string :=
  ["sharp"; "boundary"; "interior"; "exterior_derivative"; "simplices";
   "simplex_to_index"; "num_simplices"; "unstitched"; "points"; "metrics";
   "primal_volumes"; "circumcenters"; "dual_volumes"; "star"; "inverse_star";
   "codifferential"; "laplace_beltrami"; "laplace_derham"].

(** The unit segment on the real line, with the Euclidean metric. *)
Definition segment_points : list (list C) := [[Creal 0]; [Creal 1]].

(** The two ways of extending the point chains of the cells of a face by
    the circumcenter of the simplex: at the end, and in front. *)
Definition append_circumcenter (c : list C) (cells : list (list (list C) * nat))
    : list (list (list C) * nat) :=
  map (λ cell, (cell.1 ++ [c], cell.2)) cells.

Definition prepend_circumcenter (c : list C) (cells : list (list (list C) * nat))
    : list (list (list C) * nat) :=
  map (λ cell, (c :: cell.1, cell.2)) cells.

(** One edge on the real line, and the circumcenters of the edge and of its
    two end points. *)
Definition edge_simplices : array2d N := {| rows := [[0; 1]]%N; ncols := 2 |}.
Definition edge_vertices : array2d C := {| rows := [[Creal 0]; [Creal 1]]; ncols := 1 |}.
Definition edge_circumcenters (cx : complex) (pos : nat)
    : result (gmap (list N) (list C)) :=
  match pos with
  | 0 => Ok (<[ [0%N] := [Creal 0] ]> {[ [1%N] := [Creal 1] ]})
  | _ => Ok {[ [0; 1]%N := [Creal (1 / 2)] ]}
  end.

(** The boundary of the skeleton [S n] dimensions below the top one, as
    the branch [attr == "boundary"] computes it along the chain. *)
Fixpoint level_boundary (top : list (list N)) (n : nat) : result (list nat) :=
  match n with
  | O =>
      e ← level_exterior top 0;
      let m := self_exterior_derivative e in
      Ok (where_ Skeleton.is_odd (abs_column_sums m (seq 0 (shape m).1)))
  | S n' =>
      old_boundary ← level_boundary top n';
      if decide (length old_boundary ≠ 0) then
        e ← level_exterior top n;
        let m := self_exterior_derivative e in
        if forallb (λ r, r <? (shape m).1) old_boundary then
          Ok (where_ Skeleton.is_nonzero (abs_column_sums m old_boundary))
        else Raise IndexError
      else Ok []
  end.

(** Whether the simplex of index [c] is a face of [simplex], and the number
    of simplices of [old_simplices] it is a face of. *)
Definition incidentb (m : gmap (gset N) nat) (simplex : list N) (c : nat) : bool :=
  existsb (λ j, bool_decide (m !! frozenset (delete_at j simplex) = Some c))
          (seq 0 (length simplex)).

Definition count_incident (m : gmap (gset N) nat) (old_simplices : list (list N))
    (c : nat) : nat :=
  length (filter (λ s, incidentb m s c = true) old_simplices).

(** * Properties *)

(** ** Face enumeration *)

Lemma first_seen_sets (l : list (list N)) (s : gset N) :
  s ∈ frozenset <$> first_seen l ↔ s ∈ frozenset <$> l.
Proof.
  induction l as [|f l IH]; simpl; [done|].
  rewrite !elem_of_cons, <- IH, !list_elem_of_fmap.
  split.
  - intros [->|(g & -> & Hg)]; [by left|].
    apply list_elem_of_filter in Hg as [_ Hg]. right. eauto.
  - intros [->|(g & -> & Hg)]; [by left|].
    destruct (decide (frozenset g = frozenset f)) as [->|Hne]; [by left|].
    right. exists g. split; [done|]. by apply list_elem_of_filter.
Qed.

Lemma first_seen_snoc (l : list (list N)) (f : list N) :
  first_seen (l ++ [f]) =
  first_seen l ++ (if decide (frozenset f ∈ frozenset <$> l) then [] else [f]).
Proof.
  induction l as [|g l IH].
  - reflexivity.
  - cbn [app first_seen]. rewrite IH, filter_app, fmap_cons. f_equal. f_equal.
    destruct (decide (frozenset f ∈ frozenset <$> l)) as [Hin|Hnin];
      destruct (decide (frozenset f ∈ frozenset g :: (frozenset <$> l))) as [Hin'|Hnin'].
    + done.
    + exfalso. apply Hnin'. by right.
    + apply elem_of_cons in Hin' as [Heq|?]; [|contradiction].
      rewrite filter_cons_False; [done|]. intros Hne. by apply Hne.
    + rewrite filter_cons_True; [done|].
      intros Heq. apply Hnin'. rewrite Heq. by left.
Qed.

Lemma first_seen_NoDup (l : list (list N)) : NoDup (frozenset <$> first_seen l).
Proof.
  induction l as [|f l IH]; simpl; [constructor|].
  constructor.
  - rewrite list_elem_of_fmap. intros (g & Heq & Hg).
    apply list_elem_of_filter in Hg as [Hne _]. by apply Hne.
  - revert IH. generalize (first_seen l). intros k Hk.
    induction k as [|g k IHk]; simpl; [constructor|].
    inversion Hk; subst.
    destruct (decide (frozenset g ≠ frozenset f)).
    + rewrite filter_cons_True by done. simpl. constructor; [|auto].
      rewrite list_elem_of_fmap. intros (h & Heq & Hh).
      apply list_elem_of_filter in Hh as [_ Hh].
      match goal with H : _ ∉ _ |- _ => apply H end.
      rewrite list_elem_of_fmap. eauto.
    + rewrite filter_cons_False by done. auto.
Qed.

Lemma exterior_inv_seen st E e :
  exterior_inv st E → e ∈ E → is_Some (st_simplex_to_index st !! frozenset e.2).
Proof.
  intros (Hs & _ & Hm & _) He.
  assert (frozenset e.2 ∈ frozenset <$> st_simplices st) as Hin.
  { rewrite Hs. apply first_seen_sets. apply list_elem_of_fmap.
    exists e.2. split; [done|]. apply list_elem_of_fmap. eauto. }
  apply list_elem_of_lookup in Hin as [i Hi]. exists i. by apply Hm.
Qed.

Lemma exterior_inv_init : exterior_inv exterior_init [].
Proof.
  repeat split; done.
Qed.

Lemma face_step_inv simplex st E j :
  exterior_inv st E →
  exterior_inv (face_step simplex st j) (E ++ [(j, delete_at j simplex)]).
Proof.
  intros Hinv. pose proof Hinv as (Hs & Hn & Hm & Hi & Hd).
  unfold face_step, exterior_inv.
  set (f := delete_at j simplex).
  rewrite fmap_app, !map_app. cbn [fmap list_fmap map snd fst].
  rewrite first_seen_snoc.
  destruct (st_simplex_to_index st !! frozenset f) as [i|] eqn:Hlook; cbn.
  - assert (frozenset f ∈ frozenset <$> E.*2) as Hin.
    { apply first_seen_sets. rewrite <- Hs. apply Hm in Hlook.
      by eapply list_elem_of_lookup_2. }
    rewrite decide_True by done. rewrite app_nil_r.
    repeat split; try done.
    + by apply Hm.
    + by apply Hm.
    + rewrite Hi. f_equal. unfold column_of. by rewrite Hlook.
    + by rewrite Hd.
  - assert (frozenset f ∉ frozenset <$> st_simplices st) as Hnin.
    { intros [i Hi']%list_elem_of_lookup. apply Hm in Hi'. congruence. }
    rewrite decide_False; [|by rewrite <- first_seen_sets, <- Hs].
    repeat split.
    + by rewrite Hs.
    + rewrite length_app. simpl. lia.
    + rewrite fmap_app. cbn [fmap list_fmap].
      destruct (decide (s = frozenset f)) as [->|Hne].
      * rewrite lookup_insert_eq. intros [= <-].
        rewrite Hn, <- (length_fmap frozenset). by apply list_lookup_middle.
      * rewrite lookup_insert_ne by done. intros H%Hm.
        by apply lookup_app_l_Some.
    + rewrite fmap_app. cbn [fmap list_fmap]. intros H.
      destruct (decide (s = frozenset f)) as [->|Hne].
      * rewrite lookup_insert_eq. f_equal.
        apply lookup_app_Some in H as [H|[Hlen H]].
        { exfalso. apply Hnin. by eapply list_elem_of_lookup_2. }
        rewrite length_fmap in *. apply list_lookup_singleton_Some in H as [H _].
        lia.
      * rewrite lookup_insert_ne by done. apply Hm.
        apply lookup_app_Some in H as [H|[Hlen H]]; [done|].
        apply list_lookup_singleton_Some in H as [_ H]. congruence.
    + rewrite Hi. f_equal.
      * apply map_ext_in. intros e He%list_elem_of_In. unfold column_of.
        rewrite lookup_insert_ne; [done|].
        intros Heq. destruct (exterior_inv_seen st E e Hinv He) as [x Hx].
        rewrite <- Heq in Hx. congruence.
      * unfold column_of. by rewrite lookup_insert_eq.
    + by rewrite Hd.
Qed.

Lemma faces_fold_inv simplex js st E :
  exterior_inv st E →
  exterior_inv (foldl (face_step simplex) st js)
               (E ++ map (λ j, (j, delete_at j simplex)) js).
Proof.
  revert st E. induction js as [|j js IH]; intros st E Hinv; simpl.
  - by rewrite app_nil_r.
  - rewrite cons_middle, app_assoc. by apply IH, face_step_inv.
Qed.

Lemma faces_fold_indptr simplex js st :
  st_indptr (foldl (face_step simplex) st js) = st_indptr st.
Proof.
  revert st. induction js as [|j js IH]; intros st; simpl; [done|].
  rewrite IH. unfold face_step. by destruct (_ !! _).
Qed.

Lemma enumeration_snoc j_max done simplex :
  enumeration j_max (done ++ [simplex]) = enumeration j_max done ++ faces j_max simplex.
Proof. unfold enumeration. rewrite map_app, concat_app. simpl. by rewrite app_nil_r. Qed.

Lemma row_step_inv j_max st done r :
  exterior_inv st (enumeration j_max done) →
  st_indptr st = map (λ c, c * j_max) (seq 0 (S (length done))) →
  exterior_inv (row_step j_max st (length done, r)) (enumeration j_max (done ++ [r])) ∧
  st_indptr (row_step j_max st (length done, r)) =
    map (λ c, c * j_max) (seq 0 (S (length (done ++ [r])))).
Proof.
  intros Hinv Hptr. split.
  - rewrite enumeration_snoc.
    pose proof (faces_fold_inv r (seq 0 j_max) st _ Hinv) as H.
    destruct H as (H1 & H2 & H3 & H4 & H5).
    unfold exterior_inv, row_step, faces.
    cbn [st_simplices st_num_simplices st_simplex_to_index st_indices st_data].
    split_and!; assumption.
  - unfold row_step. cbn [st_indptr]. rewrite faces_fold_indptr, Hptr.
    rewrite length_app. cbn [length]. rewrite Nat.add_1_r.
    rewrite (seq_S (S (length done))), map_app. cbn [map].
    by rewrite Nat.add_0_l.
Qed.

Lemma rows_fold_inv j_max rows st done :
  exterior_inv st (enumeration j_max done) →
  st_indptr st = map (λ c, c * j_max) (seq 0 (S (length done))) →
  exterior_inv (foldl (row_step j_max) st (zip (seq (length done) (length rows)) rows))
               (enumeration j_max (done ++ rows)) ∧
  st_indptr (foldl (row_step j_max) st (zip (seq (length done) (length rows)) rows)) =
    map (λ c, c * j_max) (seq 0 (S (length (done ++ rows)))).
Proof.
  revert st done. induction rows as [|r rows IH]; intros st done Hinv Hptr.
  - rewrite app_nil_r. by split.
  - destruct (row_step_inv j_max st done r Hinv Hptr) as [Hr Hp].
    pose proof (IH _ (done ++ [r]) Hr Hp) as IH'.
    rewrite length_app in IH'. cbn [length] in IH'.
    rewrite Nat.add_1_r, <- app_assoc in IH'. exact IH'.
Qed.

Lemma compute_exterior_spec (old_simplices : list (list N)) :
  old_simplices ≠ [] →
  ∃ e, compute_exterior old_simplices = Ok e ∧ exterior_spec old_simplices e.
Proof.
  intros Hne. destruct old_simplices as [|first rest]; [done|].
  eexists. split; [reflexivity|].
  pose proof (rows_fold_inv (to_uchar (length first)) (first :: rest) exterior_init []
                exterior_inv_init eq_refl) as [(H1 & H2 & H3 & H4 & H5) H6].
  unfold exterior_spec, width. cbn [hd self_simplices self_num_simplices
    self_simplex_to_index self_exterior_derivative indices data indptr shape].
  rewrite app_nil_l in *. change (length []) with 0 in *.
  split_and!; try assumption. reflexivity.
Qed.

(** ** Rows of the assembled matrix *)

Lemma concat_block {A} (w : nat) (blocks : list (list A)) (r : nat) (b : list A) :
  Forall (λ b, length b = w) blocks →
  blocks !! r = Some b →
  take w (drop (r * w) (concat blocks)) = b.
Proof.
  revert r. induction blocks as [|b0 blocks IH]; intros r Hall Hr; [done|].
  apply Forall_cons in Hall as [Hb0 Hall].
  destruct r as [|r]; simpl in Hr.
  - injection Hr as ->. cbn [Nat.mul concat]. rewrite drop_0.
    by rewrite take_app_length'.
  - cbn [concat]. rewrite drop_app_ge by (simpl; lia).
    replace (S r * w - length b0) with (r * w) by (simpl; lia).
    by apply IH.
Qed.

Lemma nth_indptr (j_max n r : nat) :
  r ≤ n → nth r (map (λ c, c * j_max) (seq 0 (S n))) 0 = r * j_max.
Proof.
  intros Hr.
  rewrite (nth_indep _ 0 ((λ c, c * j_max) 0)) by (rewrite length_map, length_seq; lia).
  rewrite (map_nth (λ c, c * j_max)), seq_nth by lia. done.
Qed.

Lemma zip_map_pair {A B D} (g : A → B) (h : A → D) (l : list A) :
  zip (map g l) (map h l) = map (λ x, (g x, h x)) l.
Proof. induction l as [|x l IH]; simpl; [done|]. by rewrite IH. Qed.

Lemma csr_row_exterior old_simplices e r simplex :
  exterior_spec old_simplices e →
  old_simplices !! r = Some simplex →
  csr_row (self_exterior_derivative e) r =
  map (λ j, (column_of (self_simplex_to_index e) (delete_at j simplex), sign j))
      (seq 0 (to_uchar (width old_simplices))).
Proof.
  intros (_ & _ & _ & Hi & Hd & Hp & _) Hr.
  set (j_max := to_uchar (width old_simplices)) in *.
  pose proof (lookup_lt_Some _ _ _ Hr) as Hlt.
  unfold csr_row. rewrite Hp, !nth_indptr by lia.
  replace (S r * j_max - r * j_max) with j_max by lia.
  rewrite Hi, Hd. unfold enumeration.
  rewrite !concat_map, !map_map.
  assert (∀ {B} (g : nat * list N → B),
    take j_max (drop (r * j_max)
      (concat (map (λ x, map g (faces j_max x)) old_simplices))) =
    map g (faces j_max simplex)) as Hblock.
  { intros B g. apply concat_block.
    - apply Forall_forall. intros b (x & -> & _)%list_elem_of_fmap.
      unfold faces. by rewrite !length_map, length_seq.
    - change (map ?f ?l !! r) with ((f <$> l) !! r).
      by rewrite list_lookup_fmap, Hr. }
  rewrite !Hblock, zip_map_pair. unfold faces. by rewrite map_map.
Qed.

(** C3: [compute_exterior] visits, for every row of the higher skeleton,
    the faces obtained by deleting position [j = 0, 1, ...] in that order;
    a face identity (vertex set) receives the next free index the first time
    it is visited and keeps it afterwards, so that equal vertex sets resolve
    to one column; the matrix has one row per higher simplex, and the entry
    stored for the face without position [j] is [(-1)^j]. *)
Theorem compute_exterior_enumerates_faces (old_simplices : list (list N)) :
  old_simplices ≠ [] →
  width old_simplices < 256 →
  ∃ e, compute_exterior old_simplices = Ok e ∧
    let j_max := width old_simplices in
    let m := self_exterior_derivative e in
    let visited := (enumeration j_max old_simplices).*2 in
    shape m = (length old_simplices, self_num_simplices e) ∧
    (∀ r simplex, old_simplices !! r = Some simplex →
       csr_row m r =
       map (λ j, (column_of (self_simplex_to_index e) (delete_at j simplex), sign j))
           (seq 0 j_max)) ∧
    self_simplices e = first_seen visited ∧
    self_num_simplices e = length (first_seen visited) ∧
    NoDup (frozenset <$> first_seen visited) ∧
    (∀ s i, self_simplex_to_index e !! s = Some i ↔
            (frozenset <$> first_seen visited) !! i = Some s) ∧
    (∀ face, face ∈ visited →
       ∃ i, self_simplex_to_index e !! frozenset face = Some i ∧
            i < self_num_simplices e) ∧
    (∀ r r' simplex simplex' j j',
       old_simplices !! r = Some simplex → old_simplices !! r' = Some simplex' →
       j < j_max → j' < j_max →
       frozenset (delete_at j simplex) = frozenset (delete_at j' simplex') →
       (csr_row m r).*1 !! j = (csr_row m r').*1 !! j').
Proof.
  intros Hne Hw.
  destruct (compute_exterior_spec old_simplices Hne) as (e & He & Hspec).
  exists e. split; [done|]. cbv zeta.
  assert (to_uchar (width old_simplices) = width old_simplices) as Hj
    by (by apply Nat.mod_small).
  pose proof (λ r simplex, csr_row_exterior old_simplices e r simplex Hspec) as Hrow.
  destruct Hspec as (Hs & Hn & Hm & _ & _ & _ & Hsh).
  rewrite Hj in *. rewrite Hs in Hn, Hm.
  split_and!.
  - by rewrite Hsh, Hn, Hs.
  - intros r simplex Hr. by apply Hrow.
  - done.
  - done.
  - apply first_seen_NoDup.
  - done.
  - intros face Hface.
    assert (frozenset face ∈ frozenset <$> first_seen (enumeration (width old_simplices) old_simplices).*2) as Hin.
    { apply first_seen_sets, list_elem_of_fmap. eauto. }
    apply list_elem_of_lookup in Hin as [i Hi]. exists i. split; [by apply Hm|].
    rewrite Hn. apply lookup_lt_Some in Hi. by rewrite length_fmap in Hi.
  - intros r r' simplex simplex' j j' Hr Hr' Hjlt Hjlt' Heq.
    rewrite (Hrow r simplex), (Hrow r' simplex') by done.
    rewrite !list_lookup_fmap, !lookup_seq_lt by done.
    cbn [fmap option_fmap option_map fst Nat.add]. unfold column_of. by rewrite Heq.
Qed.

Lemma compute_exterior_enumerates_faces_witness :
  ∃ e, compute_exterior two_triangles = Ok e ∧
       self_num_simplices e = 5 ∧
       (csr_row (self_exterior_derivative e) 0).*1 !! 0 =
       (csr_row (self_exterior_derivative e) 1).*1 !! 2.
Proof.
  destruct (compute_exterior_enumerates_faces two_triangles)
    as (e & He & _ & _ & _ & Hn & _ & _ & _ & Hshare).
  - done.
  - vm_compute. lia.
  - exists e. split_and!; [done| |].
    + rewrite Hn. vm_compute. reflexivity.
    + apply (Hshare 0 1 [0;1;2]%N [1;2;3]%N 0 2); try done; vm_compute; lia.
Defined.

(** ** The chain-complex identity on faces *)

Lemma sumZ_app (l k : list Z) : sumZ (l ++ k) = (sumZ l + sumZ k)%Z.
Proof. induction l as [|x l IH]; simpl; [done|]. rewrite IH. lia. Qed.








Lemma length_delete_at {A} (j : nat) (l : list A) :
  j < length l → length (delete_at j l) = length l - 1.
Proof.
  intros Hj. unfold delete_at. rewrite length_app, length_take, length_drop. lia.
Qed.





(** ** Entries of rows and of products *)

Lemma row_get_cons (t : nat) (v : Z) (row : list (nat * Z)) (c : nat) :
  row_get ((t, v) :: row) c = ((if decide (t = c) then v else 0) + row_get row c)%Z.
Proof.
  unfold row_get. destruct (decide (t = c)) as [Heq|Hne].
  - by rewrite filter_cons_True.
  - rewrite filter_cons_False by done. lia.
Qed.

Lemma row_get_map {A} (col : A → nat) (v : A → Z) (l : list A) (c : nat) :
  row_get (map (λ x, (col x, v x)) l) c =
  sumZ (map (λ x, (v x * (if decide (col x = c) then 1 else 0))%Z) l).
Proof.
  induction l as [|x l IH]; [done|].
  cbn [map]. rewrite row_get_cons, IH. cbn [sumZ foldr map].
  repeat case_decide; try done; unfold sumZ; lia.
Qed.




(** ** Strictly increasing simplices *)




Lemma first_seen_subseteq (l : list (list N)) (f : list N) :
  f ∈ first_seen l → f ∈ l.
Proof.
  induction l as [|g l IH]; [done|]. simpl.
  intros [->|Hin]%elem_of_cons; [by left|].
  right. apply IH. by apply list_elem_of_filter in Hin as [_ ?].
Qed.

Lemma elem_of_concat {A} (x : A) (ls : list (list A)) :
  x ∈ concat ls ↔ ∃ l, x ∈ l ∧ l ∈ ls.
Proof.
  rewrite list_elem_of_In, in_concat. split.
  - intros (l & Hl & Hx). exists l. by rewrite !list_elem_of_In.
  - intros (l & Hx & Hl). exists l. by rewrite <- !list_elem_of_In.
Qed.

Lemma elem_of_enumeration (j_max : nat) (old_simplices : list (list N)) (f : list N) :
  f ∈ (enumeration j_max old_simplices).*2 ↔
  ∃ simplex j, simplex ∈ old_simplices ∧ j < j_max ∧ f = delete_at j simplex.
Proof.
  unfold enumeration, faces. rewrite list_elem_of_fmap. split.
  - intros ([j g] & -> & Hin). apply elem_of_concat in Hin as (b & Hin & Hb).
    apply list_elem_of_fmap in Hb as (simplex & -> & Hs).
    apply list_elem_of_fmap in Hin as (j' & [= -> ->] & Hj%elem_of_seq).
    exists simplex, j'. split_and!; [done|lia|done].
  - intros (simplex & j & Hs & Hj & ->). exists (j, delete_at j simplex).
    split; [done|]. apply elem_of_concat.
    exists ((λ j, (j, delete_at j simplex)) <$> seq 0 j_max). split.
    + apply list_elem_of_fmap. exists j. split; [done|]. apply elem_of_seq. lia.
    + apply (list_elem_of_fmap_2 (λ s, (λ j, (j, delete_at j s)) <$> seq 0 j_max)). done.
Qed.


Lemma faces_rectangular old_simplices e w :
  exterior_spec old_simplices e →
  Forall (λ s, length s = w) old_simplices →
  to_uchar (width old_simplices) ≤ w →
  Forall (λ f, length f = w - 1) (self_simplices e).
Proof.
  intros (Hs & _) Hrect Hw. apply Forall_forall. intros f Hf.
  rewrite Hs in Hf. apply first_seen_subseteq, elem_of_enumeration in Hf
    as (s & j & Hin & Hj & ->).
  rewrite Forall_forall in Hrect. rewrite length_delete_at; rewrite (Hrect s Hin); lia.
Qed.

Lemma width_rectangular {A} (l : list (list A)) (w : nat) :
  l ≠ [] → Forall (λ s, length s = w) l → width l = w.
Proof. intros Hne Hall. destruct l; [done|]. by inversion Hall. Qed.

Lemma map_seq_replicate {A} (f : nat → A) (x : A) (n : nat) :
  (∀ i, i < n → f i = x) → map f (seq 0 n) = replicate n x.
Proof.
  intros H. apply list_eq. intros i.
  destruct (decide (i < n)) as [Hi|Hi].
  - rewrite lookup_replicate_2 by done.
    change (map f (seq 0 n)) with (f <$> seq 0 n).
    rewrite list_lookup_fmap, lookup_seq_lt by done. simpl. by rewrite H.
  - rewrite !lookup_ge_None_2; [done|rewrite length_replicate; lia|].
    rewrite length_map, length_seq. lia.
Qed.


(** ** The complex after construction *)

Lemma result_map_Ok {A B} (f : A → result B) (l : list A) (l' : list B) :
  result_map f l = Ok l' → Forall2 (λ x y, f x = Ok y) l l'.
Proof.
  revert l'. induction l as [|x l IH]; intros l' H; simpl in H.
  - injection H as <-. constructor.
  - destruct (f x) as [y| |] eqn:Hy; [|done..]. cbn in H.
    destruct (result_map f l) as [ys| |]; [|done..]. cbn in H.
    injection H as <-. constructor; auto.
Qed.

Lemma init_built simplices0 vertices metric stitches subdivisions cx :
  SimplicialComplex.__init__ simplices0 vertices metric stitches subdivisions = Ok cx →
  1 ≤ ncols simplices0 →
  ∃ top stitched,
    built cx (ncols simplices0 - 1) top ∧
    stored_simplices top = Some stitched ∧
    result_map (λ s, stitch s stitches) (map (merge_sort N.le) (rows simplices0))
      = Ok stitched.
Proof.
  unfold SimplicialComplex.__init__. cbn [ndarray_sort rows ncols].
  destruct (result_map (λ s, stitch s stitches) (map _ (rows simplices0)))
    as [stitched| |] eqn:Hst; [|done..].
  cbn. destruct (result_map (λ s, stitch s stitches) stitched) as [keys| |] eqn:Hk;
    [|done..].
  cbn. destruct (result_map (take_rows _) _) as [points| |] eqn:Hp; cbn;
    [|intros [=]..].
  intros [= <-] Hn. eexists _, stitched.
  pose proof Hst as Hlen.
  apply result_map_Ok, Forall2_length in Hlen. rewrite length_map in Hlen.
  replace (Z.to_nat (Z.of_nat (ncols simplices0) - 1)) with (ncols simplices0 - 1) by lia.
  split.
  { unfold built. cbn. rewrite length_map, Hlen.
    split_and!; try done.
    - lia.
    - cbn [dim]. lia.
    - by exists stitched. }
  split; [reflexivity|done].
Qed.

Lemma built_length cx k top : built cx k top → length (skeleta cx) = S k.
Proof.
  intros (_ & -> & _). rewrite length_app, length_map, length_seq. simpl. lia.
Qed.

Lemma built_lower cx k top pos :
  built cx k top → pos < k → skeleton_at cx pos = Ok (empty_skeleton (Z.of_nat pos)).
Proof.
  intros (_ & Hsk & _) Hpos. unfold skeleton_at. rewrite Hsk.
  rewrite lookup_app_l by (rewrite length_map, length_seq; lia).
  change (map ?f ?l) with (f <$> l).
  by rewrite list_lookup_fmap, lookup_seq_lt.
Qed.

Lemma built_top cx k top : built cx k top → skeleton_at cx k = Ok top.
Proof.
  intros (_ & Hsk & _). unfold skeleton_at. rewrite Hsk.
  rewrite lookup_app_r by (rewrite length_map, length_seq; lia).
  rewrite length_map, length_seq, Nat.sub_diag. done.
Qed.

Lemma built_upper cx k top pos :
  built cx k top → pos < k →
  Skeleton.upper cx (empty_skeleton (Z.of_nat pos)) = Ok (S pos).
Proof.
  intros Hb Hpos. unfold Skeleton.upper, py_position.
  rewrite (built_length _ _ _ Hb). cbn [dim empty_skeleton].
  rewrite decide_True by lia. f_equal. lia.
Qed.

Lemma exterior_at_level cx k top stitched n :
  built cx k top → stored_simplices top = Some stitched →
  ∀ pos fuel, pos + n + 1 = k → n < fuel →
  Skeleton.exterior_at fuel cx pos = level_exterior stitched n.
Proof.
  intros Hb Hst. induction n as [|n IH]; intros pos fuel Hpos Hfuel;
    (destruct fuel as [|fuel]; [lia|]); cbn [Skeleton.exterior_at].
  - rewrite (built_lower _ _ _ _ Hb) by lia. cbn.
    rewrite (built_upper _ _ _ _ Hb) by lia. cbn.
    replace (S pos) with k by lia. rewrite (built_top _ _ _ Hb). cbn.
    by rewrite Hst.
  - rewrite (built_lower _ _ _ _ Hb) by lia. cbn.
    rewrite (built_upper _ _ _ _ Hb) by lia. cbn.
    rewrite (built_lower _ _ _ _ Hb) by lia. cbn.
    rewrite (IH (S pos) fuel) by lia.
    unfold level_exterior. cbn [level_simplices].
    destruct (level_simplices stitched n) as [up| |]; [|done..]. cbn.
    by destruct (compute_exterior up).
Qed.

Lemma lazy_exterior_lower {A} (stored : skeleton → option A) (computed : exterior → A)
    cx k top stitched pos :
  built cx k top → stored_simplices top = Some stitched →
  stored (empty_skeleton (Z.of_nat pos)) = None →
  pos < k →
  Skeleton.lazy_exterior stored computed cx pos =
  (e ← level_exterior stitched (k - 1 - pos); Ok (computed e)).
Proof.
  intros Hb Hst Hnone Hpos. unfold Skeleton.lazy_exterior.
  rewrite (built_lower _ _ _ _ Hb) by lia. cbn. rewrite Hnone.
  unfold Skeleton.compute_exterior_of.
  rewrite (exterior_at_level cx k top stitched (k - 1 - pos) Hb Hst); [done|lia|].
  rewrite (built_length _ _ _ Hb). lia.
Qed.

(** ** The chain of skeleta below the top one *)

Lemma level_step_ok (P : list N → Prop) (L : list (list N)) (w : nat) :
  (∀ j s, P s → P (delete_at j s)) →
  L ≠ [] → Forall (λ s, length s = w) L → 1 ≤ w < 256 → Forall P L →
  ∃ e, compute_exterior L = Ok e ∧ exterior_spec L e ∧
       self_simplices e ≠ [] ∧
       Forall (λ s, length s = w - 1) (self_simplices e) ∧
       Forall P (self_simplices e).
Proof.
  intros Hclosed Hne Hrect Hw HP.
  destruct (compute_exterior_spec L Hne) as (e & He & Hspec).
  pose proof (width_rectangular L w Hne Hrect) as Hwidth.
  assert (to_uchar (width L) = w) as Hu.
  { rewrite Hwidth. apply Nat.mod_small. lia. }
  exists e. split_and!; [done|done| | |].
  - destruct Hspec as (Hs & _). rewrite Hs, Hu.
    destruct L as [|s L]; [done|]. unfold enumeration, faces. cbn [map concat].
    destruct w as [|w]; [lia|]. done.
  - eapply faces_rectangular; [done..|lia].
  - destruct Hspec as (Hs & _). rewrite Hs. apply Forall_forall. intros f Hf.
    apply first_seen_subseteq, elem_of_enumeration in Hf as (s & j & Hin & _ & ->).
    rewrite Forall_forall in HP. auto.
Qed.

Lemma level_simplices_ok (P : list N → Prop) (top : list (list N)) (w : nat) :
  (∀ j s, P s → P (delete_at j s)) →
  top ≠ [] → Forall (λ s, length s = w) top → w < 256 → Forall P top →
  ∀ n, n < w →
  ∃ L, level_simplices top n = Ok L ∧ L ≠ [] ∧
       Forall (λ s, length s = w - n) L ∧ Forall P L.
Proof.
  intros Hclosed Hne Hrect Hw HP. induction n as [|n IH]; intros Hn.
  - exists top. rewrite Nat.sub_0_r. by split_and!.
  - destruct IH as (L & HL & HLne & HLrect & HLP); [lia|].
    destruct (level_step_ok P L (w - n) Hclosed HLne HLrect ltac:(lia) HLP)
      as (e & He & _ & Hne' & Hrect' & HP').
    exists (self_simplices e). cbn [level_simplices]. rewrite HL. cbn. rewrite He. cbn.
    replace (w - S n) with (w - n - 1) by lia. by split_and!.
Qed.

Lemma level_exterior_ok (P : list N → Prop) (top : list (list N)) (w : nat) :
  (∀ j s, P s → P (delete_at j s)) →
  top ≠ [] → Forall (λ s, length s = w) top → w < 256 → Forall P top →
  ∀ n, n < w →
  ∃ L e, level_simplices top n = Ok L ∧ level_exterior top n = Ok e ∧
         level_simplices top (S n) = Ok (self_simplices e) ∧
         exterior_spec L e ∧ L ≠ [] ∧
         Forall (λ s, length s = w - n) L ∧ Forall P L.
Proof.
  intros Hclosed Hne Hrect Hw HP n Hn.
  destruct (level_simplices_ok P top w Hclosed Hne Hrect Hw HP n Hn)
    as (L & HL & HLne & HLrect & HLP).
  destruct (level_step_ok P L (w - n) Hclosed HLne HLrect ltac:(lia) HLP)
    as (e & He & Hspec & _).
  exists L, e. unfold level_exterior. cbn [level_simplices]. rewrite HL. cbn.
  rewrite He. by split_and!.
Qed.


Lemma stitch_length simplex stitches simplex' :
  stitch simplex stitches = Ok simplex' → length simplex' = length simplex.
Proof. intros H%result_map_Ok%Forall2_length. done. Qed.

Lemma stitched_rectangular (simplices0 : array2d N) stitches stitched :
  well_shaped simplices0 →
  result_map (λ s, stitch s stitches) (map (merge_sort N.le) (rows simplices0))
    = Ok stitched →
  Forall (λ s, length s = ncols simplices0) stitched ∧
  length stitched = length (rows simplices0).
Proof.
  intros Hwf H%result_map_Ok. split.
  - apply Forall_forall. intros s' Hs'.
    apply list_elem_of_lookup in Hs' as [i Hi].
    destruct (Forall2_lookup_r _ _ _ _ _ H Hi) as (s & Hs & Hst).
    rewrite (stitch_length _ _ _ Hst).
    change (map ?f ?l) with (f <$> l) in Hs. rewrite list_lookup_fmap in Hs.
    destruct (rows simplices0 !! i) as [row|] eqn:Hrow; [|done].
    injection Hs as <-. rewrite merge_sort_Permutation.
    unfold well_shaped in Hwf. rewrite Forall_forall in Hwf. apply Hwf.
    by eapply list_elem_of_lookup_2.
  - apply Forall2_length in H. by rewrite length_map in H.
Qed.




Lemma init_top simplices0 vertices metric stitches subdivisions cx :
  SimplicialComplex.__init__ simplices0 vertices metric stitches subdivisions = Ok cx →
  ∃ lower top,
    skeleta cx = lower ++ [top] ∧
    dim top = complex_dimension cx ∧
    stored_boundary top = Some [] ∧
    stored_interior top = Some (seq 0 (length (rows simplices0))) ∧
    stored_num_simplices top = Some (length (rows simplices0)) ∧
    stored_exterior_derivative top = Some (csr_empty 1 (length (rows simplices0))) ∧
    stored_unstitched top = Some (map (merge_sort N.le) (rows simplices0)).
Proof.
  unfold SimplicialComplex.__init__. cbn [ndarray_sort rows ncols].
  destruct (result_map (λ s, stitch s stitches) (map _ (rows simplices0)))
    as [stitched| |] eqn:Hst; [|done..].
  cbn. destruct (result_map (λ s, stitch s stitches) stitched) as [keys| |] eqn:Hk;
    [|done..].
  cbn. destruct (result_map (take_rows _) _) as [points| |] eqn:Hp; cbn;
    [|intros [=]..].
  intros [= <-]. eexists _, _. cbn. rewrite length_map. by split_and!.
Qed.

Lemma todense_csr_empty (n : nat) : todense (csr_empty 1 n) = zeros 1 n.
Proof.
  unfold todense, zeros. cbn [csr_empty shape fst snd seq map replicate].
  f_equal. apply map_seq_replicate. intros c _.
  unfold csr_get, csr_row. cbn. reflexivity.
Qed.

(** C10: right after construction the top skeleton has an empty boundary,
    every index in its interior and a [1 x num_simplices] exterior
    derivative without entries, whatever the mesh. *)
Theorem top_skeleton_after_init simplices0 vertices metric stitches subdivisions cx :
  SimplicialComplex.__init__ simplices0 vertices metric stitches subdivisions = Ok cx →
  let top := length (skeleta cx) - 1 in
  let n := length (rows simplices0) in
  (dim <$> skeleta cx !! top) = Some (complex_dimension cx) ∧
  Skeleton.num_simplices cx top = Ok n ∧
  Skeleton.boundary cx top = Ok [] ∧
  Skeleton.interior cx top = Ok (seq 0 n) ∧
  ∃ m, Skeleton.exterior_derivative cx top = Ok m ∧
       data m = [] ∧ shape m = (1, n) ∧ todense m = zeros 1 n.
Proof.
  intros Hinit.
  destruct (init_top _ _ _ _ _ _ Hinit)
    as (lower & top & Hsk & Hdim & Hb & Hi & Hn & He & _).
  cbv zeta. rewrite Hsk, length_app. cbn [length].
  replace (length lower + 1 - 1) with (length lower) by lia.
  assert (skeleton_at cx (length lower) = Ok top) as Hat.
  { unfold skeleton_at. rewrite Hsk, list_lookup_middle; done. }
  split_and!.
  - by rewrite list_lookup_middle, <- Hdim.
  - unfold Skeleton.num_simplices, Skeleton.lazy_exterior. rewrite Hat. cbn.
    by rewrite Hn.
  - unfold Skeleton.boundary. rewrite Hat. cbn. by rewrite Hb.
  - unfold Skeleton.interior. rewrite Hat. cbn. by rewrite Hi.
  - exists (csr_empty 1 (length (rows simplices0))). split_and!; try done.
    + unfold Skeleton.exterior_derivative, Skeleton.lazy_exterior. rewrite Hat. cbn.
      by rewrite He.
    + apply todense_csr_empty.
Qed.

Lemma top_skeleton_after_init_witness :
  ∃ cx, SimplicialComplex.__init__ strip_simplices strip_vertices None strip_stitches 1
          = Ok cx ∧
    Skeleton.boundary cx 2 = Ok [] ∧
    Skeleton.interior cx 2 = Ok [0; 1].
Proof.
  destruct (SimplicialComplex.__init__ strip_simplices strip_vertices None strip_stitches 1)
    as [cx| |] eqn:Hinit; [|vm_compute in Hinit; discriminate..].
  exists cx. split; [done|].
  pose proof (top_skeleton_after_init _ _ _ _ _ cx Hinit) as (_ & _ & Hb & Hi & _).
  vm_compute in Hinit. injection Hinit as <-. split; [exact Hb|exact Hi].
Defined.

(** ** What the constructor sorts *)

(** C6 (amended): the constructor sorts the vertex indices inside every
    row in ascending order and leaves the order of the rows as it was. *)
Theorem init_sorts_each_row simplices0 vertices metric stitches subdivisions cx :
  SimplicialComplex.__init__ simplices0 vertices metric stitches subdivisions = Ok cx →
  ∃ top sorted,
    last (skeleta cx) = Some top ∧
    stored_unstitched top = Some sorted ∧
    length sorted = length (rows simplices0) ∧
    ∀ i row, rows simplices0 !! i = Some row →
      ∃ row', sorted !! i = Some row' ∧ Sorted N.le row' ∧ row' ≡ₚ row.
Proof.
  intros Hinit.
  destruct (init_top _ _ _ _ _ _ Hinit) as (lower & top & Hsk & _ & _ & _ & _ & _ & Hu).
  exists top, (map (merge_sort N.le) (rows simplices0)). split_and!.
  - rewrite Hsk. apply last_snoc.
  - done.
  - by rewrite length_map.
  - intros i row Hrow. exists (merge_sort N.le row). split_and!.
    + change (map ?f ?l) with (f <$> l). by rewrite list_lookup_fmap, Hrow.
    + apply (Sorted_merge_sort N.le).
    + apply merge_sort_Permutation.
Qed.

Lemma init_sorts_each_row_witness :
  ∃ cx top sorted,
    SimplicialComplex.__init__ unsorted_simplices line_vertices None ∅ 1 = Ok cx ∧
    last (skeleta cx) = Some top ∧
    stored_unstitched top = Some sorted ∧
    ∃ row', sorted !! 0 = Some row' ∧ Sorted N.le row' ∧ row' ≡ₚ [3; 2]%N.
Proof.
  destruct (SimplicialComplex.__init__ unsorted_simplices line_vertices None ∅ 1)
    as [cx| |] eqn:Hinit; [|vm_compute in Hinit; discriminate..].
  destruct (init_sorts_each_row _ _ _ _ _ cx Hinit) as (top & sorted & Hl & Hs & _ & Hrows).
  exists cx, top, sorted. split_and!; [done..|].
  apply (Hrows 0). reflexivity.
Defined.

(** C6 as stated fails: the rows [3, 2] and [1, 0] come out as [2, 3] and
    [0, 1], in the order given, where a lexicographic sort of the rows would
    give [1, 0] and then [3, 2]. *)
Lemma init_sort_not_lexicographic :
  ∃ cx top,
    SimplicialComplex.__init__ unsorted_simplices line_vertices None ∅ 1 = Ok cx ∧
    last (skeleta cx) = Some top ∧
    stored_unstitched top = Some [[2; 3]; [0; 1]]%N ∧
    lexsort_rows (rows unsorted_simplices) = [[1; 0]; [3; 2]]%N ∧
    stored_unstitched top ≠ Some (lexsort_rows (rows unsorted_simplices)).
Proof.
  destruct (SimplicialComplex.__init__ unsorted_simplices line_vertices None ∅ 1)
    as [cx| |] eqn:Hinit; [|vm_compute in Hinit; discriminate..].
  vm_compute in Hinit. injection Hinit as <-.
  eexists _, _. split; [reflexivity|]. split; [reflexivity|].
  split; [reflexivity|]. split; [vm_compute; reflexivity|].
  vm_compute. discriminate.
Qed.

(** ** Unknown attributes *)

(** C9: on a [Skeleton] and on a [SimplicialComplex], [__getattr__] of a
    name that is not one of the lazily computable fields raises
    [AttributeError] at once: no collaborator is consulted and no value is
    returned. *)
Theorem unknown_attribute_raises
    (list_of_set : gset (list N) → list (list N))
    (derham_map : metric_field → list (list (list C)) → nat → list (list (list C)))
    (X : Type) (operator : string → complex → nat → result X)
    (inv : list (list C) → result (list (list C)))
    (cx : complex) (pos : nat) (attr : string) :
  (attr ∉ skeleton_lazy_fields →
   Skeleton.__getattr__ list_of_set derham_map X operator cx pos attr =
   Raise (AttributeError (attr +:+ " not found"))) ∧
  (attr ≠ "barycentric_gradients" →
   SimplicialComplex.__getattr__ list_of_set derham_map inv cx attr =
   Raise (AttributeError (attr +:+ " not found"))).
Proof.
  split.
  - intros Hnot. unfold Skeleton.__getattr__, skeleton_lazy_fields in *.
    rewrite !not_elem_of_cons in Hnot.
    repeat (rewrite decide_False;
            [|rewrite ?not_elem_of_cons; intuition congruence]).
    done.
  - intros Hne. unfold SimplicialComplex.__getattr__. by rewrite decide_False.
Qed.

Lemma unknown_attribute_raises_witness :
  Skeleton.__getattr__ elements (λ _ p _, p) unit (λ _ _ _, Ok ())
      {| complex_dimension := 0; vertices := line_vertices; embedding_dimension := 1;
         stitches := ∅; subdivisions := 1; metric := λ _, identity 1; skeleta := [] |}
      0 "volume" =
    Raise (AttributeError "volume not found") ∧
  SimplicialComplex.__getattr__ elements (λ _ p _, p) (λ m, Ok m)
      {| complex_dimension := 0; vertices := line_vertices; embedding_dimension := 1;
         stitches := ∅; subdivisions := 1; metric := λ _, identity 1; skeleta := [] |}
      "volume" =
    Raise (AttributeError "volume not found").
Proof.
  split.
  - apply (unknown_attribute_raises elements (λ _ p _, p) unit (λ _ _ _, Ok ()) (λ m, Ok m)).
    unfold skeleton_lazy_fields. rewrite !not_elem_of_cons. split_and!; try done.
    apply not_elem_of_nil.
  - apply (unknown_attribute_raises elements (λ _ p _, p) unit (λ _ _ _, Ok ()) (λ m, Ok m)
             _ 0).
    done.
Defined.

(** ** Barycentric gradients *)

Lemma Cadd_assoc (x y z : C) : Cadd (Cadd x y) z = Cadd x (Cadd y z).
Proof. unfold Cadd. simpl. f_equal; lra. Qed.

Lemma Cadd_0_l (x : C) : Cadd C0 x = x.
Proof. destruct x. unfold Cadd, C0. simpl. f_equal; lra. Qed.

Lemma Cadd_opp_l (x : C) : Cadd (Copp x) x = C0.
Proof. unfold Cadd, Copp, C0. simpl. f_equal; lra. Qed.

Lemma vadd_assoc (u v w : list C) : vadd (vadd u v) w = vadd u (vadd v w).
Proof.
  unfold vadd. revert v w. induction u as [|x u IH]; intros [|y v] [|z w]; simpl; try done.
  by rewrite Cadd_assoc, IH.
Qed.

Lemma vadd_0_l (v : list C) : vadd (replicate (length v) C0) v = v.
Proof.
  unfold vadd. induction v as [|x v IH]; simpl; [done|]. by rewrite Cadd_0_l, IH.
Qed.

Lemma vadd_opp_l (v : list C) : vadd (vopp v) v = replicate (length v) C0.
Proof.
  unfold vadd, vopp. induction v as [|x v IH]; simpl; [done|].
  by rewrite Cadd_opp_l, IH.
Qed.

Lemma length_vadd (u v : list C) :
  length u = length v → length (vadd u v) = length v.
Proof. intros H. unfold vadd. rewrite length_zip_with. lia. Qed.

Lemma foldl_vadd_length (e : nat) (u : list C) (g : list (list C)) :
  length u = e → Forall (λ r, length r = e) g → length (foldl vadd u g) = e.
Proof.
  revert u. induction g as [|r g IH]; intros u Hu Hg; [done|].
  apply Forall_cons in Hg as [Hr Hg]. simpl. apply IH; [|done].
  rewrite length_vadd; congruence.
Qed.

Lemma foldl_vadd_shift (e : nat) (u : list C) (g : list (list C)) :
  length u = e → Forall (λ r, length r = e) g →
  foldl vadd u g = vadd u (foldl vadd (replicate e C0) g).
Proof.
  revert u. induction g as [|r g IH]; intros u Hu Hg.
  - simpl. rewrite <- Hu. clear. unfold vadd.
    induction u as [|x u IH]; simpl; [done|]. rewrite <- IH.
    f_equal. unfold Cadd, C0. destruct x. simpl. f_equal; lra.
  - apply Forall_cons in Hg as [Hr Hg]. simpl.
    rewrite (IH (vadd u r)) by (by rewrite ?length_vadd; congruence).
    rewrite (IH (vadd (replicate e C0) r)).
    + rewrite <- Hr at 2. by rewrite vadd_0_l, vadd_assoc.
    + rewrite length_vadd; [done|]. by rewrite length_replicate.
    + done.
Qed.

(** Prepending the negated column sums makes the columns sum to zero. *)
Lemma sum_axis0_vstack (e : nat) (g : list (list C)) :
  Forall (λ r, length r = e) g → width g = e →
  sum_axis0 (vopp (sum_axis0 g) :: g) = replicate e C0.
Proof.
  intros Hg Hw. unfold sum_axis0 at 1. unfold width at 1. cbn [hd foldl].
  assert (length (sum_axis0 g) = e) as Hlen.
  { unfold sum_axis0. rewrite Hw. apply foldl_vadd_length; [|done].
    by rewrite length_replicate. }
  unfold vopp at 1. rewrite length_map, Hlen.
  rewrite (foldl_vadd_shift e); [| |done].
  - fold (sum_axis0 g) in *. unfold sum_axis0 in Hlen |- *. rewrite Hw in *.
    set (S := foldl vadd (replicate e C0) g) in *.
    rewrite <- Hlen at 1.
    replace (replicate (length S) C0) with (replicate (length (vopp S)) C0)
      by (unfold vopp; by rewrite length_map).
    rewrite vadd_0_l, vadd_opp_l. by rewrite Hlen.
  - rewrite length_vadd; unfold vopp; rewrite ?length_map, ?length_replicate; lia.
Qed.

Lemma mat_dot_rectangular (a b : list (list C)) :
  Forall (λ r, length r = width b) (mat_dot a b).
Proof.
  unfold mat_dot. apply Forall_forall. intros r (row & -> & _)%list_elem_of_fmap.
  by rewrite length_map, length_seq.
Qed.

Lemma compute_barycentric_gradients_rows inv points metric grads :
  compute_barycentric_gradients inv points metric = Ok grads →
  ∃ others, grads = vopp (sum_axis0 others) :: others ∧
            Forall (λ r, length r = width others) others.
Proof.
  unfold compute_barycentric_gradients. destruct points as [|p0 rest]; [done|].
  destruct (inv _) as [g| |]; cbn; [|done..]. intros [= <-].
  eexists. split; [done|].
  set (V1 := mat_dot _ metric).
  pose proof (mat_dot_rectangular g V1) as Hrect.
  destruct (mat_dot g V1) as [|r rs] eqn:Hg; [constructor|].
  unfold width. cbn [hd]. apply Forall_cons in Hrect as [Hr Hrs].
  rewrite Hr. by constructor.
Qed.

Lemma scatter_raise {A} (e : exception) (writes : list (nat * A)) :
  foldl (λ acc w,
           a ← acc;
           if decide (w.1 < length a) then Ok (<[w.1 := Some w.2]> a)
           else Raise IndexError)
        (Raise e) writes = Raise e.
Proof. induction writes as [|w ws IH]; [done|]. simpl. apply IH. Qed.

Lemma scatter_loops {A} (writes : list (nat * A)) :
  foldl (λ acc w,
           a ← acc;
           if decide (w.1 < length a) then Ok (<[w.1 := Some w.2]> a)
           else Raise IndexError)
        Loops writes = Loops.
Proof. induction writes as [|w ws IH]; [done|]. simpl. apply IH. Qed.

(** An entry of the scattered array was there before or was written. *)
Lemma scatter_origin {A} (arr arr' : list (option A)) (writes : list (nat * A)) i g :
  SimplicialComplex.scatter arr writes = Ok arr' →
  arr' !! i = Some (Some g) →
  arr !! i = Some (Some g) ∨ ∃ w, w ∈ writes ∧ w.2 = g.
Proof.
  unfold SimplicialComplex.scatter. revert arr.
  induction writes as [|w ws IH]; intros arr H Hi.
  - injection H as ->. by left.
  - cbn [foldl] in H. cbn in H. destruct (decide (w.1 < length arr)) as [Hlt|Hge].
    + destruct (IH _ H Hi) as [Hold|(w' & Hw' & <-)].
      * destruct (decide (i = w.1)) as [->|Hne].
        -- rewrite list_lookup_insert_eq in Hold by done. injection Hold as <-.
           right. exists w. split; [by left|done].
        -- rewrite list_lookup_insert_ne in Hold by done. by left.
      * right. exists w'. split; [by right|done].
    + by rewrite scatter_raise in H.
Qed.

(** C8: the gradient rows computed for a top simplex sum to the zero
    vector; the row of the first vertex is the negative of the sum of the
    rows of the other vertices.  This holds for the result of
    [compute_barycentric_gradients] and for every entry it writes into the
    attribute [barycentric_gradients]. *)
Theorem barycentric_gradients_sum_to_zero
    (list_of_set : gset (list N) → list (list N))
    (derham_map : metric_field → list (list (list C)) → nat → list (list (list C)))
    (inv : list (list C) → result (list (list C))) :
  (∀ points metric grads,
     compute_barycentric_gradients inv points metric = Ok grads →
     sum_axis0 grads = replicate (width grads) C0 ∧
     ∃ first others, grads = first :: others ∧ first = vopp (sum_axis0 others)) ∧
  (∀ cx arr i grads,
     SimplicialComplex.__getattr__ list_of_set derham_map inv cx "barycentric_gradients"
       = Ok arr →
     arr !! i = Some (Some grads) →
     sum_axis0 grads = replicate (width grads) C0 ∧
     ∃ first others, grads = first :: others ∧ first = vopp (sum_axis0 others)).
Proof.
  assert (∀ points metric grads,
     compute_barycentric_gradients inv points metric = Ok grads →
     sum_axis0 grads = replicate (width grads) C0 ∧
     ∃ first others, grads = first :: others ∧ first = vopp (sum_axis0 others)) as Hfun.
  { intros points metric grads H.
    destruct (compute_barycentric_gradients_rows _ _ _ _ H) as (others & -> & Hrect).
    split; [|by eexists _, _].
    rewrite (sum_axis0_vstack (width others)) by done.
    f_equal. unfold width at 2. cbn [hd]. unfold vopp. rewrite length_map.
    unfold sum_axis0. symmetry. apply foldl_vadd_length; [|done].
    by rewrite length_replicate. }
  split; [exact Hfun|].
  intros cx arr i grads Hattr Hi.
  unfold SimplicialComplex.__getattr__ in Hattr. rewrite decide_True in Hattr by done.
  destruct (SimplicialComplex.getitem cx (-1)) as [top| |]; [|done..]. cbn in Hattr.
  destruct (Skeleton.unstitched _ _ _) as [u| |]; [|done..]. cbn in Hattr.
  destruct (Skeleton.points _ _ _) as [p| |]; [|done..]. cbn in Hattr.
  destruct (Skeleton.metrics _ _ _ _) as [m| |]; [|done..]. cbn in Hattr.
  destruct (result_map _ _) as [writes| |] eqn:Hw; [|done..]. cbn in Hattr.
  destruct (Skeleton.num_simplices _ _) as [n| |]; [|done..]. cbn in Hattr.
  destruct (scatter_origin _ _ _ _ _ Hattr Hi) as [Hold|(w & Hin & <-)].
  { apply lookup_replicate in Hold as [? _]. done. }
  apply result_map_Ok in Hw. apply list_elem_of_lookup in Hin as [j Hj].
  destruct (Forall2_lookup_r _ _ _ _ _ Hw Hj) as (stuff & _ & Hstuff).
  unfold SimplicialComplex.barycentric_gradient_of in Hstuff.
  destruct (Skeleton.simplex_to_index _ _) as [s2i| |]; [|done..]. cbn in Hstuff.
  destruct (stitch _ _) as [key| |]; [|done..]. cbn in Hstuff.
  destruct (of_option _ _) as [index| |]; [|done..]. cbn in Hstuff.
  destruct (compute_barycentric_gradients _ _ _) as [bc| |] eqn:Hbc; [|done..].
  cbn in Hstuff. injection Hstuff as <-. by eapply Hfun.
Qed.

Lemma barycentric_gradients_sum_to_zero_witness :
  ∃ grads,
    compute_barycentric_gradients (λ m, Ok m) segment_points (identity 1) = Ok grads ∧
    sum_axis0 grads = replicate (width grads) C0.
Proof.
  destruct (compute_barycentric_gradients (λ m, Ok m) segment_points (identity 1))
    as [grads| |] eqn:H; [|discriminate H..].
  exists grads. split; [done|].
  exact (proj1 (proj1 (barycentric_gradients_sum_to_zero elements (λ _ p _, p) (λ m, Ok m))
                  segment_points (identity 1) grads H)).
Defined.

(** ** Dual cells *)

Lemma result_map_ext {A B} (f g : A → result B) (l : list A) :
  (∀ x, x ∈ l → f x = g x) → result_map f l = result_map g l.
Proof.
  induction l as [|x l IH]; intros H; [done|]. simpl.
  rewrite (H x) by (by left). rewrite IH; [done|].
  intros y Hy. apply H. by right.
Qed.

Lemma to_uchar_le (n : nat) : to_uchar n ≤ n.
Proof. unfold to_uchar. apply Nat.Div0.mod_le. Qed.

Section dual_cells.
Variable circumcenters : complex → nat → result (gmap (list N) (list C)).

(** The bound on the recursion depth is never reached. *)
Lemma compute_dual_cells_fuel_enough (cx : complex) (p n : nat) :
  ∀ simplex fuel1 fuel2,
    length simplex ≤ n → length simplex < fuel1 → length simplex < fuel2 →
    SimplicialComplex.compute_dual_cells_fuel circumcenters fuel1 cx simplex p =
    SimplicialComplex.compute_dual_cells_fuel circumcenters fuel2 cx simplex p.
Proof.
  induction n as [|n IH]; intros simplex fuel1 fuel2 Hn H1 H2;
    (destruct fuel1 as [|fuel1]; [lia|]); (destruct fuel2 as [|fuel2]; [lia|]);
    cbn [SimplicialComplex.compute_dual_cells_fuel].
  - destruct simplex; [|simpl in Hn; lia]. done.
  - destruct (SimplicialComplex.getitem cx _) as [sk| |]; [|done..]. cbn [mbind result_mbind result_bind].
    destruct (circumcenters cx sk) as [cs| |]; [|done..]. cbn [mbind result_mbind result_bind].
    destruct (of_option KeyError (cs !! simplex)) as [c| |]; [|done..]. cbn [mbind result_mbind result_bind].
    case_decide; [done|]. f_equal.
    apply result_map_ext. intros i Hi%elem_of_seq.
    pose proof (to_uchar_le (length simplex)).
    rewrite (IH (delete_at i simplex) fuel1 fuel2);
      [done|rewrite length_delete_at; lia..].
Qed.

Lemma compute_dual_cells_unfold (cx : complex) (simplex : list N) (p : nat) :
  SimplicialComplex.compute_dual_cells circumcenters cx simplex p =
  let k1 := to_uchar (length simplex) in
  let k := to_uchar (k1 + 255) in
  sk ← SimplicialComplex.getitem cx (Z.of_nat k);
  cs ← circumcenters cx sk;
  c ← of_option KeyError (cs !! simplex);
  if decide (p = k) then
    s2i ← Skeleton.simplex_to_index cx sk;
    key ← stitch simplex (stitches cx);
    index ← of_option KeyError (s2i !! frozenset key);
    Ok [([c], index)]
  else
    parts ← result_map
      (λ i, cells ← SimplicialComplex.compute_dual_cells circumcenters cx
                      (delete_at i simplex) p;
            Ok (append_circumcenter c cells))
      (seq 0 k1);
    Ok (concat parts).
Proof.
  unfold SimplicialComplex.compute_dual_cells at 1.
  cbn [SimplicialComplex.compute_dual_cells_fuel]. cbv zeta.
  destruct (SimplicialComplex.getitem cx _) as [sk| |]; [|done..]. cbn [mbind result_mbind result_bind].
  destruct (circumcenters cx sk) as [cs| |]; [|done..]. cbn [mbind result_mbind result_bind].
  destruct (of_option KeyError (cs !! simplex)) as [c| |]; [|done..]. cbn [mbind result_mbind result_bind].
  case_decide; [done|]. f_equal.
  apply result_map_ext. intros i Hi%elem_of_seq.
  pose proof (to_uchar_le (length simplex)).
  unfold SimplicialComplex.compute_dual_cells.
  rewrite (compute_dual_cells_fuel_enough cx p (length simplex) (delete_at i simplex)
             (length simplex) (S (length (delete_at i simplex))));
    [done|rewrite length_delete_at; lia..].
Qed.
End dual_cells.

Lemma to_uchar_pred (k1 : nat) : 1 ≤ k1 < 256 → to_uchar (k1 + 255) = k1 - 1.
Proof.
  intros H. unfold to_uchar.
  replace (k1 + 255) with (k1 - 1 + 1 * 256) by lia.
  rewrite Nat.Div0.mod_add. apply Nat.mod_small. lia.
Qed.

(** C7 (amended): for an unstitched simplex of arity [k + 1] whose
    circumcenter is known, [compute_dual_cells] at level [p = k] returns the
    single chain holding that circumcenter, tagged with the stitched index
    of the simplex; at any other level it computes the dual cells of the
    faces obtained by deleting one vertex, in deletion order, and appends
    the circumcenter of the simplex at the end of every chain returned,
    keeping the index each chain is tagged with. *)
Theorem compute_dual_cells_appends
    (circumcenters : complex → nat → result (gmap (list N) (list C)))
    (cx : complex) (simplex : list N) (p sk : nat)
    (cs : gmap (list N) (list C)) (c : list C) :
  1 ≤ length simplex < 256 →
  SimplicialComplex.getitem cx (Z.of_nat (length simplex - 1)) = Ok sk →
  circumcenters cx sk = Ok cs →
  cs !! simplex = Some c →
  (p = length simplex - 1 →
   SimplicialComplex.compute_dual_cells circumcenters cx simplex p =
   (s2i ← Skeleton.simplex_to_index cx sk;
    key ← stitch simplex (stitches cx);
    index ← of_option KeyError (s2i !! frozenset key);
    Ok [([c], index)])) ∧
  (p ≠ length simplex - 1 →
   SimplicialComplex.compute_dual_cells circumcenters cx simplex p =
   (parts ← result_map
      (λ i, cells ← SimplicialComplex.compute_dual_cells circumcenters cx
                      (delete_at i simplex) p;
            Ok (append_circumcenter c cells))
      (seq 0 (length simplex));
    Ok (concat parts))).
Proof.
  intros Hlen Hsk Hcs Hc.
  pose proof (compute_dual_cells_unfold circumcenters cx simplex p) as Heq.
  cbv zeta in Heq.
  assert (to_uchar (length simplex) = length simplex) as Hu
    by (apply Nat.mod_small; lia).
  rewrite Hu, (to_uchar_pred _ Hlen), Hsk in Heq. cbn [mbind result_mbind result_bind] in Heq.
  rewrite Hcs in Heq. cbn [mbind result_mbind result_bind] in Heq.
  rewrite Hc in Heq. cbn [mbind result_mbind result_bind of_option] in Heq.
  split; intros Hp; rewrite Heq.
  - by rewrite decide_True.
  - by rewrite decide_False.
Qed.

Lemma compute_dual_cells_appends_witness :
  ∃ cx,
    SimplicialComplex.__init__ edge_simplices edge_vertices None ∅ 1 = Ok cx ∧
    SimplicialComplex.compute_dual_cells edge_circumcenters cx [0; 1]%N 0 =
    (parts ← result_map
       (λ i, cells ← SimplicialComplex.compute_dual_cells edge_circumcenters cx
                       (delete_at i [0; 1]%N) 0;
             Ok (append_circumcenter [Creal (1 / 2)] cells))
       (seq 0 2);
     Ok (concat parts)).
Proof.
  destruct (SimplicialComplex.__init__ edge_simplices edge_vertices None ∅ 1)
    as [cx| |] eqn:Hinit; [|vm_compute in Hinit; discriminate..].
  exists cx. split; [done|].
  apply (compute_dual_cells_appends edge_circumcenters cx [0; 1]%N 0 1
           {[ [0; 1]%N := [Creal (1 / 2)] ]} [Creal (1 / 2)]).
  - simpl. lia.
  - vm_compute in Hinit. injection Hinit as <-. reflexivity.
  - reflexivity.
  - reflexivity.
  - simpl. lia.
Defined.

(** C7 as stated fails: for the edge [(0, 1)] at level [0] the chains end
    with the circumcenter of the edge, they do not start with it. *)
Lemma compute_dual_cells_does_not_prepend :
  ∃ cx,
    SimplicialComplex.__init__ edge_simplices edge_vertices None ∅ 1 = Ok cx ∧
    SimplicialComplex.compute_dual_cells edge_circumcenters cx [0; 1]%N 0 =
      Ok [([[Creal 1]; [Creal (1 / 2)]], 0); ([[Creal 0]; [Creal (1 / 2)]], 1)] ∧
    (parts ← result_map
       (λ i, cells ← SimplicialComplex.compute_dual_cells edge_circumcenters cx
                       (delete_at i [0; 1]%N) 0;
             Ok (prepend_circumcenter [Creal (1 / 2)] cells))
       (seq 0 2);
     Ok (concat parts)) =
      Ok [([[Creal (1 / 2)]; [Creal 1]], 0); ([[Creal (1 / 2)]; [Creal 0]], 1)] ∧
    SimplicialComplex.compute_dual_cells edge_circumcenters cx [0; 1]%N 0 ≠
    (parts ← result_map
       (λ i, cells ← SimplicialComplex.compute_dual_cells edge_circumcenters cx
                       (delete_at i [0; 1]%N) 0;
             Ok (prepend_circumcenter [Creal (1 / 2)] cells))
       (seq 0 2);
     Ok (concat parts)).
Proof.
  destruct (SimplicialComplex.__init__ edge_simplices edge_vertices None ∅ 1)
    as [cx| |] eqn:Hinit; [|vm_compute in Hinit; discriminate..].
  vm_compute in Hinit. injection Hinit as <-.
  eexists. split; [reflexivity|].
  match goal with |- ?l = ?a ∧ ?r = ?b ∧ _ =>
    assert (l = a) as Hl by (vm_compute; reflexivity);
    assert (r = b) as Hr by (vm_compute; reflexivity)
  end.
  split; [exact Hl|]. split; [exact Hr|].
  rewrite Hl, Hr. intros [= H _]. lra.
Qed.

(** ** Stitching *)

Lemma _stitch_fuel_mono (n m : nat) (i : N) (s : gmap N N) (r : N) :
  _stitch_fuel n i s = Some r → n ≤ m → _stitch_fuel m i s = Some r.
Proof.
  revert m i. induction n as [|n IH]; intros m i H Hle; [done|].
  destruct m as [|m]; [lia|]. simpl in *.
  destruct (s !! i); [|done]. apply IH; [done|lia].
Qed.

Lemma _stitch_fuel_not_key (n : nat) (i : N) (s : gmap N N) (r : N) :
  _stitch_fuel n i s = Some r → s !! r = None.
Proof.
  revert i. induction n as [|n IH]; intros i H; [done|]. simpl in H.
  destruct (s !! i) as [j|] eqn:Hi; [by eapply IH|]. by injection H as <-.
Qed.

Lemma _stitch_fuel_least (n : nat) (i : N) (s : gmap N N) (r : N) :
  _stitch_fuel n i s = Some r →
  ∃ m, _stitch_fuel (S m) i s = Some r ∧ _stitch_fuel m i s = None.
Proof.
  induction n as [|n IH]; intros H; [done|].
  destruct (_stitch_fuel n i s) as [r'|] eqn:Hn.
  - pose proof (_stitch_fuel_mono n (S n) i s r' Hn ltac:(lia)) as H'.
    rewrite H in H'. injection H' as ->. by apply IH.
  - by exists n.
Qed.

Lemma _stitch_fuel_delete (n : nat) (x i : N) (s : gmap N N) (r : N) :
  _stitch_fuel n x s = Some r → _stitch_fuel n i s = None →
  _stitch_fuel n x (delete i s) = Some r.
Proof.
  revert x. induction n as [|n IH]; intros x H Hi; [done|].
  assert (_stitch_fuel n i s = None) as Hi'.
  { destruct (_stitch_fuel n i s) as [r'|] eqn:Hn; [|done].
    by rewrite (_stitch_fuel_mono n (S n) i s r' Hn) in Hi by lia. }
  simpl in H |- *. destruct (s !! x) as [y|] eqn:Hx.
  - assert (x ≠ i) as Hne.
    { intros ->. simpl in Hi. rewrite Hx in Hi. congruence. }
    rewrite lookup_delete_ne, Hx by done. by apply IH.
  - destruct (decide (x = i)) as [->|Hne].
    + by rewrite lookup_delete_eq.
    + by rewrite lookup_delete_ne, Hx.
Qed.

Lemma _stitch_fuel_undelete (n : nat) (x i : N) (s : gmap N N) (r : N) :
  _stitch_fuel n x (delete i s) = Some r → r ≠ i →
  _stitch_fuel n x s = Some r.
Proof.
  revert x. induction n as [|n IH]; intros x H Hr; [done|].
  simpl in H |- *. destruct (decide (x = i)) as [->|Hne].
  - rewrite lookup_delete_eq in H. by injection H as <-.
  - rewrite lookup_delete_ne in H by done.
    destruct (s !! x); [by apply IH|done].
Qed.

(** X1: when the loop of [_stitch] exits at all, it exits within
    [len(stitches)] iterations, with the same result; it runs forever
    exactly when no number of iterations is enough. *)
Theorem _stitch_fuel_enough (i : N) (s : gmap N N) :
  (∀ n r, _stitch_fuel n i s = Some r → _stitch i s = Ok r) ∧
  (_stitch i s = Loops ↔ ∀ n, _stitch_fuel n i s = None).
Proof.
  assert (∀ k (s : gmap N N), size s = k →
          ∀ n i r, _stitch_fuel n i s = Some r →
                   _stitch_fuel (S k) i s = Some r) as Henough.
  { clear. induction k as [|k IH]; intros s Hsize n i r H.
    - apply map_size_empty_inv in Hsize as ->.
      destruct n as [|n]; [done|]. simpl in *. by rewrite lookup_empty in *.
    - destruct (_stitch_fuel_least n i s r H) as (m & Hm & Hnone).
      simpl in Hm. change (_stitch_fuel (S (S k)) i s)
        with (match s !! i with
              | Some next => _stitch_fuel (S k) next s
              | None => Some i
              end).
      destruct (s !! i) as [j|] eqn:Hi; [|done].
      assert (size (delete i s) = k) as Hsize'.
      { rewrite map_size_delete, Hi, Hsize. simpl. lia. }
      apply (_stitch_fuel_undelete _ _ i).
      + apply (IH _ Hsize' m). by apply _stitch_fuel_delete.
      + intros ->. apply _stitch_fuel_not_key in Hm. congruence. }
  split.
  - intros n r H. unfold _stitch. by rewrite (Henough _ s eq_refl n i r H).
  - unfold _stitch. split.
    + intros H n. destruct (_stitch_fuel n i s) as [r|] eqn:Hn; [|done].
      by rewrite (Henough _ s eq_refl n i r Hn) in H.
    + intros H. by rewrite H.
Qed.

Lemma _stitch_not_key (v : N) (s : gmap N N) : s !! v = None → _stitch v s = Ok v.
Proof. intros H. unfold _stitch. cbn [_stitch_fuel]. by rewrite H. Qed.

(** X2: the vertex [_stitch] returns is not identified with any other
    vertex, so that stitching is idempotent: stitching a stitched simplex
    returns it unchanged. *)
Theorem stitch_idempotent (simplex simplex' : list N) (s : gmap N N) :
  stitch simplex s = Ok simplex' →
  Forall (λ v, s !! v = None) simplex' ∧
  length simplex' = length simplex ∧
  stitch simplex' s = Ok simplex'.
Proof.
  intros H. pose proof (result_map_Ok _ _ _ H) as Hall.
  assert (Forall (λ v, s !! v = None) simplex') as Hkeys.
  { clear H. induction Hall as [|x y l l' Hxy _ IH]; constructor; [|done].
    unfold _stitch in Hxy.
    destruct (_stitch_fuel _ x s) as [r|] eqn:Hr; [|done]. injection Hxy as <-.
    by eapply _stitch_fuel_not_key. }
  split_and!; [done|by eapply Forall2_length in Hall|].
  clear H Hall. unfold stitch.
  induction Hkeys as [|v l Hv _ IH]; [done|]. cbn [result_map].
  rewrite (_stitch_not_key v s Hv). cbn [mbind result_mbind result_bind].
  by rewrite IH.
Qed.

Lemma stitch_idempotent_witness :
  stitch [1; 0]%N strip_stitches = Ok [1; 0]%N.
Proof.
  apply (stitch_idempotent [1; 3]%N [1; 0]%N strip_stitches).
  vm_compute. reflexivity.
Defined.

(** ** Boundary and interior *)

Lemma elem_of_where_ (p : Z → bool) (a : list Z) (x : nat) :
  x ∈ where_ p a ↔ ∃ v, a !! x = Some v ∧ p v = true.
Proof.
  unfold where_. rewrite list_elem_of_fmap. split.
  - intros ([i v] & -> & Hin). apply list_elem_of_filter in Hin as [Hp Hin].
    apply list_elem_of_lookup in Hin as [j Hj].
    apply lookup_zip_with_Some in Hj as (i' & v' & [= <- <-] & Hi & Hv).
    apply lookup_seq in Hi as [-> _]. exists v. done.
  - intros (v & Hv & Hp). exists (x, v). split; [done|].
    apply list_elem_of_filter. split; [done|].
    apply list_elem_of_lookup. exists x. apply lookup_zip_with_Some.
    exists x, v. split_and!; [done| |done].
    apply lookup_seq. split; [done|]. by eapply lookup_lt_Some.
Qed.

Lemma where__sorted (p : Z → bool) (a : list Z) : StronglySorted lt (where_ p a).
Proof.
  unfold where_. generalize 0. induction a as [|v a IH]; intros start.
  - simpl. constructor.
  - cbn [length seq zip zip_with]. destruct (decide (p v = true)) as [Hp|Hp].
    + rewrite filter_cons_True by done. cbn [map fst]. constructor; [apply IH|].
      apply Forall_forall. intros x Hx.
      apply list_elem_of_fmap in Hx as ([i w] & -> & Hin).
      apply list_elem_of_filter in Hin as [_ Hin].
      apply list_elem_of_lookup in Hin as [j Hj].
      apply lookup_zip_with_Some in Hj as (i' & v' & [= <- <-] & Hi & _).
      apply lookup_seq in Hi as [-> _]. simpl. lia.
    + rewrite filter_cons_False by done. apply IH.
Qed.

Lemma where__lt (p : Z → bool) (a : list Z) (x : nat) :
  x ∈ where_ p a → x < length a.
Proof. intros (v & Hv & _)%elem_of_where_. by eapply lookup_lt_Some. Qed.

Lemma sorted_lt_NoDup (l : list nat) : StronglySorted lt l → NoDup l.
Proof.
  induction 1 as [|x l _ IH Hall]; constructor; [|done].
  intros Hin. rewrite Forall_forall in Hall. specialize (Hall x Hin). lia.
Qed.

Lemma length_abs_column_sums (m : csr_matrix) (rows : list nat) :
  length (abs_column_sums m rows) = (shape m).2.
Proof. unfold abs_column_sums. by rewrite length_map, length_seq. Qed.
Lemma boundary_at_level cx k top stitched n :
  built cx k top → stored_simplices top = Some stitched →
  ∀ pos fuel, pos + n + 1 = k → n < fuel →
  Skeleton.boundary_at fuel cx pos = level_boundary stitched n.
Proof.
  intros Hb Hst. induction n as [|n IH]; intros pos fuel Hpos Hfuel;
    (destruct fuel as [|fuel]; [lia|]); cbn [Skeleton.boundary_at level_boundary].
  - rewrite (built_lower _ _ _ _ Hb) by lia. cbn [mbind result_mbind result_bind].
    pose proof Hb as (Hcd & _). rewrite Hcd. cbn [dim empty_skeleton].
    rewrite decide_True by lia.
    unfold Skeleton.exterior_derivative.
    rewrite (lazy_exterior_lower _ _ cx k top stitched pos Hb Hst) by (done || lia).
    replace (k - 1 - pos) with 0 by lia.
    by destruct (level_exterior stitched 0).
  - rewrite (built_lower _ _ _ _ Hb) by lia. cbn [mbind result_mbind result_bind].
    pose proof Hb as (Hcd & _). rewrite Hcd. cbn [dim empty_skeleton].
    rewrite decide_False by lia.
    rewrite (built_upper _ _ _ _ Hb) by lia. cbn [mbind result_mbind result_bind].
    rewrite (built_lower _ _ _ _ Hb) by lia. cbn [mbind result_mbind result_bind].
    cbn [stored_boundary empty_skeleton].
    rewrite (IH (S pos) fuel) by lia.
    destruct (level_boundary stitched n) as [old| |]; [|done..].
    cbn [mbind result_mbind result_bind].
    case_decide; [|done].
    unfold Skeleton.exterior_derivative.
    rewrite (lazy_exterior_lower _ _ cx k top stitched pos Hb Hst) by (done || lia).
    replace (k - 1 - pos) with (S n) by lia.
    by destruct (level_exterior stitched (S n)).
Qed.

Lemma forallb_ltb (l : list nat) (n : nat) :
  (∀ x, x ∈ l → x < n) → forallb (λ r, r <? n) l = true.
Proof.
  intros H. apply forallb_forall. intros x Hx%list_elem_of_In.
  apply Nat.ltb_lt. auto.
Qed.

(** Along the chain every boundary is computed without an exception and
    holds strictly increasing indices of simplices of its skeleton. *)
Lemma level_boundary_ok (top : list (list N)) (w : nat) :
  top ≠ [] → Forall (λ s, length s = w) top → w < 256 →
  ∀ n, S n < w →
  ∃ b L, level_boundary top n = Ok b ∧ level_simplices top (S n) = Ok L ∧
         StronglySorted lt b ∧ ∀ x, x ∈ b → x < length L.
Proof.
  intros Hne Hrect Hw.
  pose proof (level_exterior_ok (λ _, True) top w (λ _ _ _, I) Hne Hrect Hw) as Hlev.
  assert (Forall (λ _ : list N, True) top) as HT by (by apply Forall_forall).
  specialize (Hlev HT).
  induction n as [|n IH]; intros Hn.
  - destruct (Hlev 0) as (L & e & HL & He & HL' & Hspec & _); [lia|].
    cbn [level_boundary]. rewrite He. cbn [mbind result_mbind result_bind].
    eexists _, _. split_and!; [done|exact HL'|apply where__sorted|].
    intros x Hx%where__lt. rewrite length_abs_column_sums in Hx.
    destruct Hspec as (_ & _ & _ & _ & _ & _ & Hsh). by rewrite Hsh in Hx.
  - destruct IH as (old & Lold & Hold & HLold & _ & Hlt); [lia|].
    destruct (Hlev (S n)) as (L & e & HL & He & HL' & Hspec & _); [lia|].
    rewrite HL in HLold. injection HLold as <-.
    cbn [level_boundary]. rewrite Hold. cbn [mbind result_mbind result_bind].
    exists (if decide (length old ≠ 0)
            then where_ Skeleton.is_nonzero
                   (abs_column_sums (self_exterior_derivative e) old)
            else []), (self_simplices e).
    destruct Hspec as (_ & _ & _ & _ & _ & _ & Hsh).
    case_decide.
    + rewrite He. cbn [mbind result_mbind result_bind].
      rewrite forallb_ltb by (rewrite Hsh; exact Hlt).
      split_and!; [done|exact HL'|apply where__sorted|].
      intros x Hx%where__lt. rewrite length_abs_column_sums in Hx.
      by rewrite Hsh in Hx.
    + split_and!; [done|exact HL'|constructor|]. intros x Hx. by apply elem_of_nil in Hx.
Qed.
Lemma Sorted_le_seq (start len : nat) : Sorted Nat.le (seq start len).
Proof.
  revert start. induction len as [|len IH]; intros start; [constructor|].
  simpl. constructor; [apply IH|]. destruct len; constructor. lia.
Qed.

Lemma elem_of_interior (n : nat) (b : list nat) (x : nat) :
  x ∈ merge_sort Nat.le (elements ((list_to_set (seq 0 n) : gset nat) ∖ list_to_set b))
  ↔ x < n ∧ x ∉ b.
Proof.
  rewrite merge_sort_Permutation, elem_of_elements, elem_of_difference,
    !elem_of_list_to_set, elem_of_seq. intuition lia.
Qed.

(** X3: on every skeleton of a complex built from at least one simplex,
    [boundary] and [interior] are computed without an exception, both are
    ascending and free of repetitions, and together they split
    [0 .. num_simplices - 1]: an index is in [interior] exactly when it is
    below [num_simplices] and not in [boundary]. *)
Theorem boundary_interior_partition
    simplices0 vertices metric stitches subdivisions cx :
  SimplicialComplex.__init__ simplices0 vertices metric stitches subdivisions = Ok cx →
  well_shaped simplices0 → rows simplices0 ≠ [] →
  1 ≤ ncols simplices0 < 256 →
  ∀ pos : nat, (Z.of_nat pos ≤ complex_dimension cx)%Z →
  ∃ n b it,
    Skeleton.num_simplices cx pos = Ok n ∧
    Skeleton.boundary cx pos = Ok b ∧
    Skeleton.interior cx pos = Ok it ∧
    StronglySorted lt b ∧ Sorted Nat.le it ∧ NoDup it ∧
    (∀ x, x ∈ b → x < n) ∧
    (∀ x, x ∈ it ↔ x < n ∧ x ∉ b).
Proof.
  intros Hinit Hwf Hrows [Hn1 Hn2] pos Hpos.
  destruct (init_built _ _ _ _ _ _ Hinit Hn1) as (top & stitched & Hb & Hst & Hres).
  set (k := ncols simplices0 - 1) in *.
  pose proof Hb as (Hcd & _ & _ & (st' & Hst' & Hnum & _ & Hint) & Hbnd).
  rewrite Hst in Hst'. injection Hst' as <-.
  rewrite Hcd in Hpos.
  destruct (stitched_rectangular _ _ _ Hwf Hres) as [Hrect Hlen].
  assert (stitched ≠ []) as Hne.
  { intros ->. destruct (rows simplices0); done. }
  destruct (decide (pos = k)) as [->|Hlt].
  - exists (length stitched), [], (seq 0 (length stitched)).
    unfold Skeleton.num_simplices, Skeleton.lazy_exterior, Skeleton.boundary,
      Skeleton.interior.
    rewrite (built_top _ _ _ Hb). cbn [mbind result_mbind result_bind].
    rewrite Hnum, Hbnd, Hint. split_and!; try done.
    + constructor.
    + apply Sorted_le_seq.
    + apply NoDup_seq.
    + intros x Hx. by apply elem_of_nil in Hx.
    + intros x. rewrite elem_of_seq, elem_of_nil. intuition lia.
  - assert (pos < k) as Hpos' by lia.
    destruct (level_exterior_ok (λ _, True) stitched (ncols simplices0) (λ _ _ _, I)
                Hne Hrect Hn2 ltac:(by apply Forall_forall) (k - 1 - pos) ltac:(lia))
      as (L & e & HL & He & HL' & Hspec & _).
    destruct (level_boundary_ok stitched (ncols simplices0) Hne Hrect Hn2
                (k - 1 - pos) ltac:(lia)) as (b & L' & Hbd & HL'' & Hsorted & Hblt).
    rewrite HL' in HL''. injection HL'' as <-.
    destruct Hspec as (_ & Hnm & _).
    assert (Skeleton.num_simplices cx pos = Ok (self_num_simplices e)) as Hns.
    { unfold Skeleton.num_simplices.
      rewrite (lazy_exterior_lower _ _ cx k top stitched pos Hb Hst) by (done || lia).
      by rewrite He. }
    assert (Skeleton.boundary cx pos = Ok b) as Hbs.
    { unfold Skeleton.boundary. rewrite (built_lower _ _ _ _ Hb) by lia.
      cbn [mbind result_mbind result_bind stored_boundary empty_skeleton].
      rewrite (boundary_at_level cx k top stitched (k - 1 - pos) Hb Hst); [done|lia|].
      rewrite (built_length _ _ _ Hb). lia. }
    eexists _, b, _. split_and!; [exact Hns|exact Hbs| |done| | | |].
    + unfold Skeleton.interior. rewrite (built_lower _ _ _ _ Hb) by lia.
      cbn [mbind result_mbind result_bind stored_interior empty_skeleton].
      rewrite Hns, Hbs. cbn [mbind result_mbind result_bind]. reflexivity.
    + apply (Sorted_merge_sort Nat.le).
    + rewrite merge_sort_Permutation. apply NoDup_elements.
    + intros x Hx. rewrite Hnm. by apply Hblt.
    + intros x. apply elem_of_interior.
Qed.

Lemma boundary_interior_partition_witness :
  ∃ cx n b it,
    SimplicialComplex.__init__ strip_simplices strip_vertices None strip_stitches 1
      = Ok cx ∧
    Skeleton.num_simplices cx 1 = Ok n ∧ Skeleton.boundary cx 1 = Ok b ∧
    Skeleton.interior cx 1 = Ok it ∧ ∀ x, x ∈ it ↔ x < n ∧ x ∉ b.
Proof.
  destruct (SimplicialComplex.__init__ strip_simplices strip_vertices None strip_stitches 1)
    as [cx| |] eqn:Hinit; [|vm_compute in Hinit; discriminate..].
  destruct (boundary_interior_partition _ _ _ _ _ cx Hinit) with (pos := 1)
    as (n & b & it & Hn & Hb & Hi & _ & _ & _ & _ & Hit).
  - repeat constructor.
  - done.
  - simpl. lia.
  - vm_compute in Hinit. injection Hinit as <-. simpl. lia.
  - by exists cx, n, b, it.
Defined.

(** ** Entries of the exterior derivative of simplices with distinct vertices *)

Lemma delete_at_delete {A} (j : nat) (l : list A) : delete_at j l = delete j l.
Proof. unfold delete_at. by rewrite delete_take_drop. Qed.

Lemma delete_at_NoDup {A} (j : nat) (l : list A) : NoDup l → NoDup (delete_at j l).
Proof.
  intros H. rewrite delete_at_delete.
  exact (sublist_NoDup _ _ H (sublist_delete l j)).
Qed.

Lemma delete_at_frozenset_inj (s : list N) (j j' : nat) :
  NoDup s → j < length s → j' < length s →
  frozenset (delete_at j s) = frozenset (delete_at j' s) → j = j'.
Proof.
  intros Hnd Hj Hj' Heq. destruct (decide (j = j')) as [|Hne]; [done|]. exfalso.
  destruct (lookup_lt_is_Some_2 s j Hj) as [x Hx].
  assert (x ∈ delete_at j' s) as Hin.
  { rewrite delete_at_delete. destruct (decide (j < j')).
    - apply list_elem_of_lookup. exists j. by rewrite list_lookup_delete_lt.
    - apply list_elem_of_lookup. exists (j - 1).
      rewrite list_lookup_delete_ge by lia. by replace (S (j - 1)) with j by lia. }
  assert (x ∉ delete_at j s) as Hnin.
  { rewrite <- (take_drop_middle s j x Hx) in Hnd.
    apply NoDup_app in Hnd as (_ & Hdisj & Hnd). apply NoDup_cons in Hnd as [Hnd _].
    unfold delete_at. rewrite elem_of_app. intros [Hl|Hr]; [|done].
    apply (Hdisj x Hl). by left. }
  apply Hnin. unfold frozenset in Heq.
  apply (elem_of_list_to_set (C:=gset N)). rewrite Heq.
  by apply elem_of_list_to_set.
Qed.

Lemma abs_sign (j : nat) : Z.abs (sign j) = 1%Z.
Proof. unfold sign. rewrite Z.abs_pow. simpl. apply Z.pow_1_l. lia. Qed.

Lemma sumZ_injective_column (col : nat → nat) (v : nat → Z) (c : nat) (js : list nat) :
  NoDup js → (∀ j j', j ∈ js → j' ∈ js → col j = col j' → j = j') →
  (∃ j, j ∈ js ∧ col j = c ∧
        sumZ (map (λ j, (v j * (if decide (col j = c) then 1 else 0))%Z) js) = v j) ∨
  ((∀ j, j ∈ js → col j ≠ c) ∧
   sumZ (map (λ j, (v j * (if decide (col j = c) then 1 else 0))%Z) js) = 0%Z).
Proof.
  induction js as [|j0 js IH]; intros Hnd Hinj.
  - right. split; [|done]. intros j Hj. by apply elem_of_nil in Hj.
  - apply NoDup_cons in Hnd as [Hj0 Hnd].
    destruct IH as [(j & Hj & Hc & Hsum)|[Hnone Hsum]]; [done| |..].
    + intros j j' Hj Hj'. apply Hinj; by right.
    + left. exists j. split_and!; [by right|done|].
      cbn [map]. change (sumZ (?x :: ?l)) with (x + sumZ l)%Z. rewrite Hsum.
      rewrite decide_False; [lia|]. intros Hc0.
      assert (j0 = j) as -> by (apply Hinj; [by left|by right|congruence]). done.
    + cbn [map]. change (sumZ (?x :: ?l)) with (x + sumZ l)%Z. rewrite Hsum.
      destruct (decide (col j0 = c)) as [Hc|Hc].
      * left. exists j0. split_and!; [by left|done|lia].
      * right. split; [|lia]. intros j [->|Hj]%elem_of_cons; auto.
Qed.

Lemma incidentb_true (m : gmap (gset N) nat) (simplex : list N) (c : nat) :
  incidentb m simplex c = true ↔
  ∃ j, j < length simplex ∧ m !! frozenset (delete_at j simplex) = Some c.
Proof.
  unfold incidentb. rewrite existsb_exists. split.
  - intros (j & Hj%list_elem_of_In%elem_of_seq & Hb%bool_decide_eq_true).
    exists j. split; [lia|done].
  - intros (j & Hj & Hm). exists j. split.
    + apply list_elem_of_In, elem_of_seq. lia.
    + by apply bool_decide_eq_true.
Qed.

(** With distinct vertices a simplex has each face once: the entry of its
    row in column [c] is [1] or [-1] when [c] is one of its faces, and [0]
    otherwise. *)
Lemma abs_entry_incident old_simplices e r simplex c :
  exterior_spec old_simplices e →
  old_simplices !! r = Some simplex →
  NoDup simplex → length simplex = to_uchar (width old_simplices) →
  Z.abs (csr_get (self_exterior_derivative e) r c) =
  if incidentb (self_simplex_to_index e) simplex c then 1%Z else 0%Z.
Proof.
  intros Hspec Hr Hnd Hlen.
  unfold csr_get. rewrite (csr_row_exterior _ _ _ _ Hspec Hr), <- Hlen, row_get_map.
  pose proof Hspec as (Hs & _ & Hm & _).
  assert (∀ j, j < length simplex →
    self_simplex_to_index e !! frozenset (delete_at j simplex) =
    Some (column_of (self_simplex_to_index e) (delete_at j simplex))) as Hcol.
  { intros j Hj.
    assert (frozenset (delete_at j simplex) ∈ frozenset <$> self_simplices e) as Hin.
    { rewrite Hs. apply first_seen_sets, list_elem_of_fmap.
      exists (delete_at j simplex). split; [done|]. apply elem_of_enumeration.
      exists simplex, j. split_and!; [by eapply list_elem_of_lookup_2|lia|done]. }
    apply list_elem_of_lookup in Hin as [i Hi]. apply Hm in Hi.
    unfold column_of. by rewrite Hi. }
  destruct (sumZ_injective_column
              (λ j, column_of (self_simplex_to_index e) (delete_at j simplex))
              sign c (seq 0 (length simplex)))
    as [(j & Hj%elem_of_seq & Hc & ->)|[Hnone ->]].
  - apply NoDup_seq.
  - intros j j' Hj%elem_of_seq Hj'%elem_of_seq Heq.
    apply (delete_at_frozenset_inj simplex); [done|lia|lia|].
    pose proof (Hcol j ltac:(lia)) as H1. pose proof (Hcol j' ltac:(lia)) as H2.
    rewrite Heq in H1. apply Hm in H1, H2. congruence.
  - rewrite abs_sign.
    assert (incidentb (self_simplex_to_index e) simplex c = true) as ->; [|done].
    apply incidentb_true. exists j. split; [lia|]. rewrite Hcol by lia. by f_equal.
  - destruct (incidentb (self_simplex_to_index e) simplex c) eqn:Hinc; [|done].
    apply incidentb_true in Hinc as (j & Hj & Hmj). exfalso.
    apply (Hnone j); [apply elem_of_seq; lia|].
    rewrite Hcol in Hmj by done. by injection Hmj.
Qed.
